(** * timechange: time-series-to-image feature extraction

    A shallow embedding of [web/timechange/transform.py] (the feature
    extraction behind [convert_all_csv]) and of the filter-list handling at
    the top of [web/timechange/conv_model.py], with the properties the
    specification states about them.

    Conventions of the embedding

    - A numpy array is a [shape] together with its row-major (C order)
      buffer, so that [reshape] and [flatten] are what they are in numpy:
      a change of shape over the same buffer.
    - Array elements are rationals: every finite float64 and every int64
      is one.  Where the outcome depends on the arithmetic of the array's
      dtype it is modelled as such: the in-place subtraction of [nothing]
      is a parameter ([int64_subtract] wraps around, [float64_subtract]
      rounds), and the product behind a pixel is the float64 product.  The
      true division of the row normalizer is kept exact; what is stated
      about its results (bounds, the values 0 and 1, equality of two runs on
      equal operands) holds of the rounded quotients as well.
    - Python integers are [Z]; [%] is [Z.modulo] (the sign follows the
      divisor in both).
    - A raised exception is a value of [exn]; a call that can raise returns
      a [result].
    - [np.fft.rfft] composed with [np.abs], and [scipy.signal.spectrogram],
      are library code: they are parameters of the transforms.
    - The transforms run in a small state-and-error monad whose state is the
      array object the caller passed as [time_series]: an in-place update
      of that object is a [put_arg], a rebinding of the local name is not. *)

From Stdlib Require Import String Ascii.
From Stdlib Require Import List ZArith QArith Qminmax Qround Qabs.
From Stdlib Require Import Lia Lqa Bool.
Import ListNotations.

Local Open Scope nat_scope.

(** ** Exceptions and results *)

Inductive exn : Type :=
| Exception (msg : string)
| ValueError
| ZeroDivisionError
| TypeError
| IndexError.

Inductive result (A : Type) : Type :=
| Ok (a : A)
| Raise (e : exn).

Arguments Ok {A} a.
Arguments Raise {A} e.

Definition rbind {A B : Type} (r : result A) (k : A -> result B) : result B :=
  match r with
  | Ok a => k a
  | Raise e => Raise e
  end.

(** ** The part of numpy the transforms use *)

Module Numpy.

Record ndarray : Type := mk_ndarray { shape : list nat; data : list Q }.

(** [np.product(a.shape)] *)
Definition product (s : list nat) : nat := fold_right Nat.mul 1 s.

(** The buffer holds exactly one element per index. *)
Definition well_formed (a : ndarray) : Prop :=
  length (data a) = product (shape a).

(** [a.shape[k]] *)
Definition dim (k : nat) (a : ndarray) : nat := nth k (shape a) 0.

(** [n] consecutive windows of width [w]. *)
Fixpoint chunks (w n : nat) (l : list Q) : list (list Q) :=
  match n with
  | O => []
  | S n' => firstn w l :: chunks w n' (skipn w l)
  end.

(** The rows of a 2-D array, and the 2-D array with given rows. *)
Definition rows (a : ndarray) : list (list Q) :=
  chunks (dim 1 a) (dim 0 a) (data a).

Definition of_rows (n w : nat) (rs : list (list Q)) : ndarray :=
  mk_ndarray [n; w] (concat rs).

(** [np.array(rs)] for a literal list of equally long rows. *)
Definition array (rs : list (list Q)) : ndarray :=
  of_rows (length rs) (length (hd [] rs)) rs.

(** [a[i][j]] of a 2-D and [a[i][j][k]] of a 3-D array. *)
Definition get2 (a : ndarray) (i j : nat) : Q :=
  nth (i * dim 1 a + j) (data a) 0%Q.

Definition get3 (a : ndarray) (i j k : nat) : Q :=
  nth ((i * dim 1 a + j) * dim 2 a + k) (data a) 0%Q.

(** [np.pad(a, ((0, 0), (0, p)), 'constant', constant_values=0)]:
    a negative pad width is refused. *)
Definition pad (a : ndarray) (p : Z) : result ndarray :=
  if (p <? 0)%Z then Raise ValueError
  else Ok (of_rows (dim 0 a) (dim 1 a + Z.to_nat p)
             (map (fun r => r ++ repeat 0%Q (Z.to_nat p)) (rows a))).

(** [a.reshape(s)]: the same buffer under a shape of the same size. *)
Definition reshape (a : ndarray) (s : list nat) : result ndarray :=
  if product s =? product (shape a) then Ok (mk_ndarray s (data a))
  else Raise ValueError.

Definition list_max (r : list Q) : Q :=
  match r with
  | [] => 0%Q
  | x :: r' => fold_right Qmax x r'
  end.

Definition list_min (r : list Q) : Q :=
  match r with
  | [] => 0%Q
  | x :: r' => fold_right Qmin x r'
  end.

(** [np.max(a, axis=1)] and [np.min(a, axis=1)] of a 2-D array: a reduction
    along an axis of length zero has no identity and is refused. *)
Definition max_axis1 (a : ndarray) : result (list Q) :=
  if dim 1 a =? 0 then Raise ValueError else Ok (map list_max (rows a)).

Definition min_axis1 (a : ndarray) : result (list Q) :=
  if dim 1 a =? 0 then Raise ValueError else Ok (map list_min (rows a)).

(** [np.place(v, v == 0, 1)], also written [v[v == 0] = 1]. *)
Definition place_zeros (v : list Q) (one : Q) : list Q :=
  map (fun m => if Qeq_bool m 0 then one else m) v.

Fixpoint map2 {A B C : Type} (f : A -> B -> C) (l : list A) (l' : list B)
  : list C :=
  match l, l' with
  | x :: t, y :: t' => f x y :: map2 f t t'
  | _, _ => []
  end.

(** [a + v.reshape(n, 1)] and [a / v.reshape(n, 1)] (the latter is also
    [(a.T / v).T]): row [i] of [a] combined with [v[i]]; in general
    [broadcast_rows f], for an operation [f] on elements. *)
Definition broadcast_rows (f : Q -> Q -> Q) (a : ndarray) (v : list Q)
  : ndarray :=
  mk_ndarray (shape a)
    (concat (map2 (fun r m => map (fun x => f x m) r) (rows a) v)).

Definition add_rows : ndarray -> list Q -> ndarray := broadcast_rows Qplus.
Definition div_rows : ndarray -> list Q -> ndarray := broadcast_rows Qdiv.

(** [x - y] in an int64 array: the difference of two integers modulo 2^64,
    in the range from -2^63 to 2^63 - 1. *)
Definition wrap_int64 (z : Z) : Z := ((z + 2 ^ 63) mod 2 ^ 64 - 2 ^ 63)%Z.

Definition int64_subtract (x y : Q) : Q :=
  inject_Z (wrap_int64 (Qfloor x - Qfloor y)).

(** The float64 nearest to a rational, ties to the even mantissa: 53 bits
    of mantissa, exponents down to the subnormal 2^-1074.  (A result of
    magnitude 2^1024 or more is an infinity in float64; such values are
    outside the model.) *)
Definition round_half_even (y : Q) : Z :=
  let f := Qfloor y in
  match (y - inject_Z f ?= 1 # 2)%Q with
  | Lt => f
  | Gt => (f + 1)%Z
  | Eq => if Z.even f then f else (f + 1)%Z
  end.

Definition pow2 (e : Z) : Q :=
  if (0 <=? e)%Z then inject_Z (2 ^ e) else (1 / inject_Z (2 ^ (- e)))%Q.

(** The [l] with [2^l <= x < 2^(l+1)], for [x > 0]. *)
Definition floor_log2 (x : Q) : Z :=
  let l := (Z.log2 (Qnum x) - Z.log2 (Zpos (Qden x)))%Z in
  if Qle_bool (pow2 l) x then l else (l - 1)%Z.

Definition float64 (x : Q) : Q :=
  if Qeq_bool x 0 then 0%Q
  else
    let e := Z.max (floor_log2 (Qabs x) - 52) (-1074) in
    (inject_Z (round_half_even (x / pow2 e)) * pow2 e)%Q.

(** [x - y] and [x * y] in a float64 array. *)
Definition float64_subtract (x y : Q) : Q := float64 (x - y).
Definition float64_multiply (x y : Q) : Q := float64 (x * y).

(** [np.stack((a, a, a), axis=2)] of a 2-D array: every element becomes
    three adjacent equal elements along a new last axis. *)
Definition stack3 (a : ndarray) : ndarray :=
  mk_ndarray (shape a ++ [3]) (flat_map (fun x => [x; x; x]) (data a)).

(** [np.abs(np.fft.rfft(a, n))] of a 2-D array, row by row;
    [rfft_abs n r] is the magnitude of the real FFT of the row [r], cut or
    zero-filled to [n] points.  numpy refuses [n < 1]. *)
Definition abs_rfft (rfft_abs : nat -> list Q -> list Q)
  (a : ndarray) (n : Z) : result ndarray :=
  if (n <? 1)%Z then Raise ValueError
  else Ok (of_rows (dim 0 a) (Z.to_nat n / 2 + 1)
             (map (rfft_abs (Z.to_nat n)) (rows a))).

(** [(x * 255).astype(np.uint8)] element-wise is [astype_uint8 (x * 255)]:
    the conversion drops the fractional part.  Outside [0, 256) the C
    conversion behind it is not defined; the usual outcome, kept here, wraps
    modulo 256. *)
Definition truncate (x : Q) : Z :=
  if Qle_bool 0 x then Qfloor x else Qceiling x.

Definition astype_uint8 (x : Q) : Z := (truncate x mod 256)%Z.

End Numpy.

(** ** web/timechange/transform.py *)

Module Transform.
Import Numpy.

(** *** The monad of a transform

    The state is the array object the caller passed in. *)

Definition M (A : Type) : Type := ndarray -> ndarray * result A.

Definition ret {A : Type} (x : A) : M A := fun s => (s, Ok x).

Definition bind {A B : Type} (m : M A) (k : A -> M B) : M B :=
  fun s =>
    match m s with
    | (s', Ok a) => k a s'
    | (s', Raise e) => (s', Raise e)
    end.

Definition get_arg : M ndarray := fun s => (s, Ok s).
Definition put_arg (a : ndarray) : M unit := fun _ => (a, Ok tt).
Definition lift {A : Type} (r : result A) : M A := fun s => (s, r).
Definition raise {A : Type} (e : exn) : M A := fun s => (s, Raise e).

Notation "x <- m ;; k" := (bind m (fun x => k))
  (at level 61, m at next level, right associativity).
Notation "m ;;; k" := (bind m (fun _ => k))
  (at level 61, right associativity).

(** Python's [a % b] on integers. *)
Definition py_mod (a b : Z) : result Z :=
  if (b =? 0)%Z then Raise ZeroDivisionError else Ok (a mod b)%Z.

(** Keyword arguments: the entries of the [**kwargs] dictionary. *)
Definition kwargs : Type := list (string * Z).

Fixpoint lookup (k : string) (kw : kwargs) : option Z :=
  match kw with
  | [] => None
  | (k', v) :: kw' => if String.eqb k k' then Some v else lookup k kw'
  end.

Definition default (d : Z) (o : option Z) : Z :=
  match o with
  | Some v => v
  | None => d
  end.

(** Lines 150 to 152 of [simple_fourier]: the padding of the time axis
    before it is cut into chunks. *)
Definition pad_to_chunk_size (chunk_size : Z) (time_series : ndarray)
  : result ndarray :=
  rbind (py_mod (Z.of_nat (dim 1 time_series)) chunk_size) (fun r =>
  let pad_length := (chunk_size - r)%Z in
  pad time_series pad_length).

(** The normalization by row that [simple_fourier] (lines 168 to 174) and
    [nothing] (lines 193 to 201) both carry out. *)
Definition row_divisors (time_series : ndarray) : result (list Q) :=
  (* Extract max values and replace 0s to avoid divide by 0 issue *)
  rbind (max_axis1 time_series) (fun max_values =>
  Ok (place_zeros max_values 1%Q)).

Definition normalize_rows (time_series : ndarray) : result ndarray :=
  rbind (row_divisors time_series) (fun max_values =>
  (* Normalize the time series data by row *)
  Ok (div_rows time_series max_values)).

(** [(data * 255).astype(np.uint8)] for one element (line 106): the
    features are float64, and so is their product with 255. *)
Definition pixel (v : Q) : Z := astype_uint8 (float64_multiply v 255).

Section Transforms.

(** [np.abs(np.fft.rfft(row, n))] for one row. *)
Variable rfft_abs : nat -> list Q -> list Q.

(** [Sxx] of [scipy.signal.spectrogram(x)] for a flat sequence [x]. *)
Variable signal_spectrogram : list Q -> result ndarray.

(** [x - y] in the dtype of [time_series]: [int64_subtract] for a csv of
    integers, [float64_subtract] for one with decimals. *)
Variable subtract : Q -> Q -> Q.

(** [simple_fourier(time_series, chunk_size=64, fft_size=128)] *)
Definition simple_fourier (chunk_size fft_size : Z) : M ndarray :=
  time_series <- get_arg ;;
  (* Store the number of time series streams *)
  let num_time_series := dim 0 time_series in
  (* Pad the data to chunk size *)
  time_series <- lift (pad_to_chunk_size chunk_size time_series) ;;
  (* Reshape the data to chunks of suitable size *)
  time_series <- lift (reshape time_series
      [Z.to_nat (Z.of_nat (product (shape time_series)) ÷ chunk_size);
       Z.to_nat chunk_size]) ;;
  (* Perform FFT on the resulting data *)
  time_series <- lift (abs_rfft rfft_abs time_series fft_size) ;;
  (* Store the chunked shape *)
  let chunked_shape := shape time_series in
  (* Reshape it back to num_waves, * for normalization *)
  time_series <- lift (reshape time_series
      [num_time_series; product (shape time_series) / num_time_series]) ;;
  (* Normalize against maximum value per row *)
  time_series <- lift (normalize_rows time_series) ;;
  (* Reshape the time series back to its chunked shape *)
  time_series <- lift (reshape time_series chunked_shape) ;;
  ret (stack3 time_series).

(** [nothing(time_series)]: the subtraction is [-=], an update of the
    caller's array in place, in the array's own dtype. *)
Definition nothing : M ndarray :=
  time_series <- get_arg ;;
  (* Bring all values up to positive *)
  mins <- lift (min_axis1 time_series) ;;
  put_arg (broadcast_rows subtract time_series mins) ;;;
  time_series <- get_arg ;;
  (* Normalize all rows per row *)
  normalized <- lift (normalize_rows time_series) ;;
  (* Return the array normalized *)
  ret (stack3 normalized).

(** [spectrogram(time_series)]; [time_series.flatten()] is the buffer. *)
Definition spectrogram : M ndarray :=
  time_series <- get_arg ;;
  Sxx <- lift (signal_spectrogram (data time_series)) ;;
  ret (stack3 Sxx).

(** [simple_fourier(time_series, **kwargs)]: a keyword the function does
    not have is a TypeError; an absent one takes its default. *)
Definition call_simple_fourier (kw : kwargs) : M ndarray :=
  if forallb (fun p => String.eqb (fst p) "chunk_size"
                       || String.eqb (fst p) "fft_size") kw
  then simple_fourier (default 64 (lookup "chunk_size" kw))
                      (default 128 (lookup "fft_size" kw))
  else raise TypeError.

(** [extract(time_series, method, **kwargs)] *)
Definition extract (method : string) (kw : kwargs) : M ndarray :=
  if String.eqb method "fft" then call_simple_fourier kw
  else if String.eqb method "spectrogram" then spectrogram
  else if String.eqb method "nothing" then nothing
  else raise (Exception "Invalid feature extraction method").

(** The body of the second loop of [convert_all_csv] for one file, from the
    array read from the csv to the bytes handed to [Image.fromarray]. *)
Definition convert_one (max_length : Z) (method : string)
  (chunk_size fft_size : Z) (csv : ndarray) : result (list nat * list Z) :=
  rbind (pad csv (max_length - Z.of_nat (dim 1 csv))) (fun padded =>
  rbind (snd (extract method
               [("chunk_size"%string, chunk_size);
                ("fft_size"%string, fft_size)] padded)) (fun features =>
  Ok (shape features,
      map pixel (data features)))).

End Transforms.

(** *** Instances of the library parameters, for the examples

    For [n <= 2] the magnitudes of the real FFT are rational and
    [rfft_abs_small] is exact; the examples use no other [n].  [power_map]
    is a one-bin short-time power map. *)

Definition rfft_abs_small (n : nat) (r : list Q) : list Q :=
  let x0 := nth 0 r 0%Q in
  let x1 := nth 1 r 0%Q in
  match n with
  | 1 => [Qabs x0]
  | 2 => [Qabs (x0 + x1); Qabs (x0 - x1)]
  | _ => repeat 0%Q (n / 2 + 1)
  end.

Definition power_map (x : list Q) : result ndarray :=
  Ok (of_rows 1 (length x) [map (fun v => v * v)%Q x]).

End Transform.

(** ** web/timechange/conv_model.py: the filter list *)

Module ConvModel.

Local Open Scope Z_scope.

(** The Python values the filter-list code handles. *)
Inductive pyval : Type :=
| PyInt (z : Z)
| PyList (l : list Z).

(** [x * y]: the product of two integers, a list repeated. *)
Definition py_mul (x y : pyval) : result pyval :=
  match x, y with
  | PyInt a, PyInt b => Ok (PyInt (a * b))
  | PyList l, PyInt n | PyInt n, PyList l =>
      Ok (PyList (concat (repeat l (Z.to_nat n))))
  | PyList _, PyList _ => Raise TypeError
  end.

(** [l.extend(v)]: [v] has to be iterable, which an integer is not. *)
Definition list_extend (l : list Z) (v : pyval) : result (list Z) :=
  match v with
  | PyList l' => Ok (l ++ l')%list
  | PyInt _ => Raise TypeError
  end.

(** [s.split(',')] *)
Fixpoint split_comma (s : string) : list string :=
  match s with
  | EmptyString => [EmptyString]
  | String c s' =>
      if Ascii.eqb c "," then EmptyString :: split_comma s'
      else match split_comma s' with
           | w :: ws => String c w :: ws
           | [] => [String c EmptyString]
           end
  end.

(** [int(s)] for an ASCII string: blanks around, an optional sign, decimal
    digits with single underscores between them. *)
Definition is_space (c : ascii) : bool :=
  let n := nat_of_ascii c in
  ((9 <=? n) && (n <=? 13) || (n =? 32))%nat.

Fixpoint lstrip (s : string) : string :=
  match s with
  | String c s' => if is_space c then lstrip s' else s
  | EmptyString => EmptyString
  end.

Fixpoint rev_string (s acc : string) : string :=
  match s with
  | EmptyString => acc
  | String c s' => rev_string s' (String c acc)
  end.

Definition strip (s : string) : string :=
  rev_string (lstrip (rev_string (lstrip s) EmptyString)) EmptyString.

Definition digit_of (c : ascii) : option Z :=
  let n := nat_of_ascii c in
  if ((48 <=? n) && (n <=? 57))%nat then Some (Z.of_nat n - 48) else None.

Fixpoint digits (s : string) (acc : Z) (after_digit : bool) : option Z :=
  match s with
  | EmptyString => if after_digit then Some acc else None
  | String c s' =>
      if Ascii.eqb c "_" then
        if after_digit then digits s' acc false else None
      else
        match digit_of c with
        | Some d => digits s' (10 * acc + d) true
        | None => None
        end
  end.

Definition py_int (s : string) : result Z :=
  let body (t : string) (sign : Z) :=
    match digits t 0 false with
    | Some n => Ok (sign * n)
    | None => Raise ValueError
    end in
  match strip s with
  | String "-" t => body t (-1)
  | String "+" t => body t 1
  | t => body t 1
  end.

(** [[int(f) for f in l]] *)
Fixpoint ints (l : list string) : result (list Z) :=
  match l with
  | [] => Ok []
  | f :: l' => rbind (py_int f) (fun n => rbind (ints l') (fun ns => Ok (n :: ns)))
  end.

(** [l[-1]] *)
Definition last_item (l : list Z) : result Z :=
  match rev l with
  | x :: _ => Ok x
  | [] => Raise IndexError
  end.

(** Lines 36 to 41 of [conv_model]: the filter list the blocks are built
    from, given [config['num_filters']] and [config['num_block']]. *)
Definition filter_list (num_filters : string) (num_blocks : Z)
  : result (list Z) :=
  (* Parse the filter list into useful values *)
  rbind (ints (split_comma num_filters)) (fun num_filters =>
  (* Extend the filter list to make sure it accounts for all blocks *)
  if Z.of_nat (length num_filters) <? num_blocks then
    (* Pad the filter sizes with the last element *)
    rbind (last_item num_filters) (fun last =>
    rbind (py_mul (PyInt last)
             (PyInt (num_blocks - Z.of_nat (length num_filters)))) (fun v =>
    list_extend num_filters v))
  else Ok num_filters).

(** [l[i]] for an index [i >= 0] *)
Definition item (l : list Z) (i : nat) : result Z :=
  match nth_error l i with
  | Some x => Ok x
  | None => Raise IndexError
  end.

(** The indices at which [conv_model] reads the filter list: [0] for the
    first block (line 56) and [layer] for [layer in range(1, num_blocks)]
    (lines 64 to 66). *)
Definition filter_indices (num_blocks : Z) : list nat :=
  0%nat :: seq 1 (Z.to_nat (num_blocks - 1)).

End ConvModel.

(** ** web/timechange/transform.py: the walk over the dataset *)

Module Walker.

(** Lines 56 to 60 of [convert_all_csv]: the columns to read; [None] is
    pandas' "all columns". *)
Definition parse_columns (columns : string) : option (list string) :=
  let columns := ConvModel.split_comma columns in
  match columns with
  | [EmptyString] => None
  | _ => Some columns
  end.

(** A csv file of the project as the walk sees it: the number of lines
    [readlines] returns, and the array
    [pandas.read_csv(...).as_matrix().T]. *)
Record csv_file : Type :=
  mk_csv_file { lines : nat; table : Numpy.ndarray }.

(** Lines 74 to 83: the first pass, over the files of one label and over
    the labels. *)
Definition longest (max_length : Z) (files : list csv_file) : Z :=
  fold_left (fun m f => Z.max m (Z.of_nat (lines f) - 1)) files max_length.

Definition max_length (dataset : list (list csv_file)) : Z :=
  fold_left longest dataset (-1)%Z.

End Walker.

(** ** Notions the specification uses *)

Import Numpy Transform.

(** [ceil(t / c)] on naturals. *)
Definition ceil_div (t c : nat) : nat := (t + c - 1) / c.

(** [z] is an integer nearest to [x]: whatever the rule for ties, a
    rounding to the nearest integer returns such a [z]. *)
Definition nearest_integer (z : Z) (x : Q) : Prop :=
  (Qabs (inject_Z z - x) <= 1 # 2)%Q.

(** A 2-D array of [n] rows and [t] columns. *)
Definition is_batch (n t : nat) (a : ndarray) : Prop :=
  shape a = [n; t] /\ well_formed a.

(** [m] is the maximum of row [i] of a batch with [t] columns. *)
Definition row_maximum (t : nat) (a : ndarray) (i : nat) (m : Q) : Prop :=
  (forall j, j < t -> (get2 a i j <= m)%Q) /\
  (exists j, j < t /\ (get2 a i j == m)%Q).

(** [m] is the minimum of row [i] of a batch with [t] columns. *)
Definition row_minimum (t : nat) (a : ndarray) (i : nat) (m : Q) : Prop :=
  (forall j, j < t -> (m <= get2 a i j)%Q) /\
  (exists j, j < t /\ (get2 a i j == m)%Q).

(** Two arrays of one shape whose elements are equal as numbers. *)
Definition same_values (a b : ndarray) : Prop :=
  shape a = shape b /\ Forall2 Qeq (data a) (data b).

(** The array [nothing] leaves in place of its argument: every row minus
    its minimum, in the arithmetic of the dtype.  And the array the row
    normalizer makes of a batch. *)
Definition shifted (subtract : Q -> Q -> Q) (a : ndarray) : ndarray :=
  broadcast_rows subtract a (map list_min (rows a)).

(** The subtraction of the dtype is exact within every row of [a]: no
    wrap-around, no rounding. *)
Definition exact_on (subtract : Q -> Q -> Q) (a : ndarray) : Prop :=
  Forall (fun r => forall x y, In x r -> In y r ->
                               (subtract x y == x - y)%Q) (rows a).

Definition normalized (a : ndarray) : ndarray :=
  div_rows a (place_zeros (map list_max (rows a)) 1%Q).

(** [",".join(l)] *)
Fixpoint join_comma (l : list string) : string :=
  match l with
  | [] => EmptyString
  | [w] => w
  | w :: l' => (w ++ "," ++ join_comma l')%string
  end.

(** The message of the exception [extract] raises. *)
Definition invalid_method : exn :=
  Exception "Invalid feature extraction method".

(** The method names [extract] compares with. *)
Definition methods : list string := ["fft"; "spectrogram"; "nothing"]%string.

(** Stepping through a run of the monad. *)
Ltac run_in H :=
  unfold bind, get_arg, put_arg, lift, ret, raise in H; simpl in H;
  repeat match type of H with
    | context [match ?r with Ok _ => _ | Raise _ => _ end] =>
        let E := fresh "E" in destruct r eqn:E; simpl in H
    end.

(** Checking [exact_on] on a literal array: every pair of every row. *)
Ltac check_exact_on :=
  unfold exact_on;
  match goal with
  | |- Forall _ ?rs => let r := eval vm_compute in rs in change rs with r
  end;
  repeat constructor; intros x y Hx Hy; simpl in Hx, Hy;
  repeat match goal with
    | H : _ \/ _ |- _ => destruct H
    | H : False |- _ => destruct H
    end; subst; vm_compute; reflexivity.

(** ** Rows and buffers *)

Section Chunks.

Lemma chunks_length (w n : nat) (l : list Q) : length (chunks w n l) = n.
Proof.
  revert l; induction n as [|n IH]; intros l; simpl; [reflexivity|].
  now rewrite IH.
Qed.

Lemma chunks_widths (w n : nat) (l : list Q) :
  length l = n * w -> Forall (fun r => length r = w) (chunks w n l).
Proof.
  revert l; induction n as [|n IH]; intros l Hl; simpl; constructor.
  - rewrite length_firstn. lia.
  - apply IH. rewrite length_skipn. lia.
Qed.

Lemma concat_chunks (w n : nat) (l : list Q) :
  length l = n * w -> concat (chunks w n l) = l.
Proof.
  revert l; induction n as [|n IH]; intros l Hl; simpl.
  - destruct l; [reflexivity | discriminate].
  - rewrite IH by (rewrite length_skipn; lia).
    apply firstn_skipn.
Qed.

Lemma chunks_concat (w : nat) (rs : list (list Q)) :
  Forall (fun r => length r = w) rs ->
  chunks w (length rs) (concat rs) = rs.
Proof.
  induction 1 as [|r rs Hr _ IH]; simpl; [reflexivity|].
  subst w. rewrite firstn_app, skipn_app, Nat.sub_diag, firstn_all, skipn_all.
  simpl. rewrite app_nil_r. now rewrite IH.
Qed.

Lemma length_concat_uniform (w : nat) (rs : list (list Q)) :
  Forall (fun r => length r = w) rs -> length (concat rs) = length rs * w.
Proof.
  induction 1 as [|r rs Hr _ IH]; simpl; [reflexivity|].
  rewrite length_app. lia.
Qed.

Lemma nth_concat_uniform (w i j : nat) (rs : list (list Q)) (d : Q) :
  Forall (fun r => length r = w) rs -> j < w ->
  nth (i * w + j) (concat rs) d = nth j (nth i rs []) d.
Proof.
  intros H; revert i; induction H as [|r rs Hr _ IH]; intros i Hj.
  - simpl. now destruct (i * w + j), i, j.
  - destruct i as [|i]; simpl.
    + rewrite app_nth1 by lia. reflexivity.
    + rewrite app_nth2 by lia.
      replace (w + i * w + j - length r) with (i * w + j) by lia.
      now apply IH.
Qed.

Lemma map2_length {A B C : Type} (f : A -> B -> C) (l : list A) (l' : list B) :
  length l = length l' -> length (map2 f l l') = length l.
Proof.
  revert l'; induction l as [|x l IH]; intros [|y l'] H; simpl in *;
    try discriminate; [reflexivity|].
  now rewrite IH by lia.
Qed.

Lemma nth_map2 {A B C : Type} (f : A -> B -> C) (l : list A) (l' : list B)
  (i : nat) (da : A) (db : B) (dc : C) :
  length l = length l' -> i < length l ->
  nth i (map2 f l l') dc = f (nth i l da) (nth i l' db).
Proof.
  revert l' i; induction l as [|x l IH]; intros [|y l'] i H Hi; simpl in *;
    try discriminate; try lia.
  destruct i; [reflexivity|]. apply IH; lia.
Qed.

Lemma map2_widths (f : Q -> Q -> Q) (w : nat) (rs : list (list Q))
  (v : list Q) :
  Forall (fun r => length r = w) rs -> length rs = length v ->
  Forall (fun r => length r = w)
    (map2 (fun r m => map (fun x => f x m) r) rs v).
Proof.
  intros H; revert v; induction H as [|r rs Hr _ IH]; intros [|m v] Hv;
    simpl in *; try discriminate; constructor.
  - now rewrite length_map.
  - apply IH. lia.
Qed.

End Chunks.

(** ** Batches *)

Section Batches.

Variables (n t : nat) (a : ndarray).
Hypothesis Ha : is_batch n t a.

Lemma batch_dims : dim 0 a = n /\ dim 1 a = t.
Proof. destruct Ha as [Hs _]. unfold dim. now rewrite Hs. Qed.

Lemma batch_length : length (data a) = n * t.
Proof.
  destruct Ha as [Hs Hw]. unfold well_formed in Hw. rewrite Hw, Hs.
  simpl. lia.
Qed.

Lemma batch_rows_length : length (rows a) = n.
Proof.
  unfold rows. destruct batch_dims as [-> ->]. apply chunks_length.
Qed.

Lemma batch_rows_widths : Forall (fun r => length r = t) (rows a).
Proof.
  unfold rows. destruct batch_dims as [-> ->].
  apply chunks_widths, batch_length.
Qed.

Lemma batch_concat_rows : concat (rows a) = data a.
Proof.
  unfold rows. destruct batch_dims as [-> ->].
  apply concat_chunks, batch_length.
Qed.

Lemma batch_get2 (i j : nat) :
  j < t -> get2 a i j = nth j (nth i (rows a) []) 0%Q.
Proof.
  intros Hj. unfold get2. destruct batch_dims as [_ ->].
  rewrite <- batch_concat_rows.
  apply nth_concat_uniform; [apply batch_rows_widths | exact Hj].
Qed.

Lemma batch_row_width (i : nat) : i < n -> length (nth i (rows a) []) = t.
Proof.
  intros Hi. pose proof batch_rows_widths as H.
  rewrite Forall_forall in H. apply H, nth_In.
  now rewrite batch_rows_length.
Qed.

End Batches.

Lemma of_rows_batch (n w : nat) (rs : list (list Q)) :
  length rs = n -> Forall (fun r => length r = w) rs ->
  is_batch n w (of_rows n w rs).
Proof.
  intros Hn Hw. split; [reflexivity|].
  unfold well_formed. simpl.
  rewrite (length_concat_uniform w) by assumption. lia.
Qed.

Lemma of_rows_rows (n w : nat) (rs : list (list Q)) :
  length rs = n -> Forall (fun r => length r = w) rs ->
  rows (of_rows n w rs) = rs.
Proof.
  intros Hn Hw. unfold rows, of_rows, dim. simpl.
  rewrite <- Hn. now apply chunks_concat.
Qed.

(** ** The array operations keep batches batches *)

Lemma pad_batch (n t : nat) (a : ndarray) (p : Z) :
  is_batch n t a -> (0 <= p)%Z ->
  exists a', pad a p = Ok a' /\ is_batch n (t + Z.to_nat p) a'.
Proof.
  intros Ha Hp. unfold pad.
  destruct (Z.ltb_spec p 0) as [Hlt|_]; [lia|].
  destruct (batch_dims n t a Ha) as [-> ->].
  eexists; split; [reflexivity|].
  apply of_rows_batch.
  - rewrite length_map. now apply batch_rows_length with (t := t).
  - rewrite Forall_map.
    eapply Forall_impl; [|apply (batch_rows_widths n t a Ha)].
    intros r Hr. simpl in *. rewrite length_app, repeat_length. lia.
Qed.

Lemma reshape_batch (n t n' t' : nat) (a : ndarray) :
  is_batch n t a -> n' * t' = n * t ->
  reshape a [n'; t'] = Ok (mk_ndarray [n'; t'] (data a)) /\
  is_batch n' t' (mk_ndarray [n'; t'] (data a)).
Proof.
  intros Ha E. pose proof (batch_length n t a Ha) as Hl.
  destruct Ha as [Hs Hw]. unfold reshape. rewrite Hs. simpl.
  replace (n' * (t' * 1) =? n * (t * 1)) with true
    by (symmetry; apply Nat.eqb_eq; lia).
  split; [reflexivity|]. split; [reflexivity|].
  unfold well_formed. simpl. lia.
Qed.

Lemma abs_rfft_batch (rfft_abs : nat -> list Q -> list Q) (n t f : nat)
  (a : ndarray) :
  (forall r, length (rfft_abs f r) = f / 2 + 1) ->
  is_batch n t a -> 0 < f ->
  exists a', abs_rfft rfft_abs a (Z.of_nat f) = Ok a' /\
             is_batch n (f / 2 + 1) a'.
Proof.
  intros Hf Ha Hpos. unfold abs_rfft.
  destruct (Z.ltb_spec (Z.of_nat f) 1) as [Hlt|_]; [lia|].
  rewrite Nat2Z.id. destruct (batch_dims n t a Ha) as [-> _].
  eexists; split; [reflexivity|].
  apply of_rows_batch.
  - rewrite length_map. now apply batch_rows_length with (t := t).
  - rewrite Forall_map. apply Forall_forall. intros r _. apply Hf.
Qed.

Lemma broadcast_rows_batch (f : Q -> Q -> Q) (n t : nat) (a : ndarray)
  (v : list Q) :
  is_batch n t a -> length v = n -> is_batch n t (broadcast_rows f a v).
Proof.
  intros Ha Hv. pose proof (batch_rows_length n t a Ha) as Hn.
  pose proof (batch_rows_widths n t a Ha) as Hw.
  destruct Ha as [Hs _]. split; [exact Hs|].
  unfold well_formed, broadcast_rows. simpl.
  rewrite (length_concat_uniform t).
  - rewrite map2_length by lia. rewrite Hs. simpl. lia.
  - apply map2_widths; [assumption | lia].
Qed.

Lemma broadcast_rows_rows (f : Q -> Q -> Q) (n t : nat) (a : ndarray)
  (v : list Q) :
  is_batch n t a -> length v = n ->
  rows (broadcast_rows f a v)
  = map2 (fun r m => map (fun x => f x m) r) (rows a) v.
Proof.
  intros Ha Hv. pose proof (batch_rows_length n t a Ha) as Hn.
  pose proof (batch_rows_widths n t a Ha) as Hw.
  unfold rows at 1. unfold dim, broadcast_rows. simpl.
  destruct Ha as [-> _]. simpl.
  rewrite <- Hn at 1.
  rewrite <- (map2_length (fun r m => map (fun x => f x m) r) (rows a) v)
    by lia.
  apply chunks_concat. apply map2_widths; [assumption | lia].
Qed.

Lemma broadcast_rows_get2 (f : Q -> Q -> Q) (n t : nat) (a : ndarray)
  (v : list Q) (i j : nat) :
  is_batch n t a -> length v = n -> i < n -> j < t ->
  get2 (broadcast_rows f a v) i j = f (get2 a i j) (nth i v 0%Q).
Proof.
  intros Ha Hv Hi Hj.
  rewrite (batch_get2 n t _ (broadcast_rows_batch f n t a v Ha Hv)) by lia.
  rewrite (broadcast_rows_rows f n t) by assumption.
  pose proof (batch_rows_length n t a Ha) as Hn.
  rewrite (nth_map2 _ _ _ _ [] 0%Q) by lia.
  rewrite (batch_get2 n t a Ha) by lia.
  rewrite (nth_indep _ 0%Q (f 0%Q (nth i v 0%Q)))
    by (rewrite length_map, (batch_row_width n t a Ha); lia).
  apply (map_nth (fun x => f x (nth i v 0%Q))).
Qed.

Lemma normalize_rows_batch (n t : nat) (a : ndarray) :
  is_batch n t a -> 0 < t ->
  normalize_rows a
  = Ok (div_rows a (place_zeros (map list_max (rows a)) 1%Q)) /\
  is_batch n t (div_rows a (place_zeros (map list_max (rows a)) 1%Q)).
Proof.
  intros Ha Ht. unfold normalize_rows, row_divisors, max_axis1.
  destruct (batch_dims n t a Ha) as [_ E]. rewrite E.
  destruct (Nat.eqb_spec t 0) as [->|_]; [lia|]. simpl.
  split; [reflexivity|].
  apply broadcast_rows_batch; [assumption|].
  unfold place_zeros. rewrite !length_map.
  now apply batch_rows_length with (t := t).
Qed.

Lemma product_app_3 (s : list nat) : product (s ++ [3]) = product s * 3.
Proof.
  induction s as [|x s IH]; simpl; [reflexivity|]. rewrite IH. lia.
Qed.

Lemma length_triple (l : list Q) :
  length (flat_map (fun x => [x; x; x]) l) = length l * 3.
Proof.
  induction l as [|x l IH]; simpl; [reflexivity|]. rewrite IH. reflexivity.
Qed.

Lemma stack3_well_formed (a : ndarray) :
  well_formed a -> well_formed (stack3 a).
Proof.
  unfold well_formed, stack3. simpl. intros H.
  now rewrite product_app_3, length_triple, H.
Qed.

(** ** Chunk-alignment padding (lines 150 to 152) *)

Lemma ceil_div_unaligned (t c : nat) :
  0 < c -> t mod c <> 0 -> ceil_div t c = t / c + 1.
Proof.
  intros Hc Hr. unfold ceil_div.
  pose proof (Nat.div_mod_eq t c) as E.
  pose proof (Nat.mod_upper_bound t c ltac:(lia)) as Hlt.
  symmetry. apply (Nat.div_unique _ _ _ (t mod c - 1)); lia.
Qed.

Lemma ceil_div_aligned (t c : nat) :
  0 < c -> t mod c = 0 -> ceil_div t c = t / c.
Proof.
  intros Hc Hr. unfold ceil_div.
  pose proof (Nat.div_mod_eq t c) as E.
  symmetry. apply (Nat.div_unique _ _ _ (c - 1)); lia.
Qed.

(** [c * ceil_div t c] is the smallest multiple of [c] that is [>= t]. *)
Lemma ceil_div_least (t c : nat) :
  0 < c ->
  t <= c * ceil_div t c /\ forall k, t <= c * k -> c * ceil_div t c <= c * k.
Proof.
  intros Hc. pose proof (Nat.div_mod_eq t c) as E.
  pose proof (Nat.mod_upper_bound t c ltac:(lia)) as Hlt.
  destruct (Nat.eq_dec (t mod c) 0) as [Hr|Hr].
  - rewrite ceil_div_aligned by assumption. split; [lia|]. intros k Hk. lia.
  - rewrite ceil_div_unaligned by assumption. split; [lia|].
    intros k Hk. apply Nat.mul_le_mono_l.
    assert (t / c < k); [|lia].
    apply Nat.Div0.div_lt_upper_bound.
    destruct (Nat.eq_dec t (c * k)) as [Et|Et]; [|lia].
    exfalso. apply Hr. rewrite Et, Nat.mul_comm. apply Nat.Div0.mod_mul.
Qed.

(** What the padding does for every length: the new length is
    [c * (t / c + 1)], the smallest multiple of [c] strictly above [t]. *)
Lemma pad_to_chunk_size_batch (n t c : nat) (a : ndarray) :
  is_batch n t a -> 0 < c ->
  exists a', pad_to_chunk_size (Z.of_nat c) a = Ok a' /\
             is_batch n (c * (t / c + 1)) a'.
Proof.
  intros Ha Hc. unfold pad_to_chunk_size, py_mod.
  destruct (batch_dims n t a Ha) as [_ ->].
  destruct (Z.eqb_spec (Z.of_nat c) 0) as [E|_]; [lia|]. simpl.
  pose proof (Z.mod_pos_bound (Z.of_nat t) (Z.of_nat c) ltac:(lia)) as Hb.
  destruct (pad_batch n t a (Z.of_nat c - Z.of_nat t mod Z.of_nat c) Ha
              ltac:(lia)) as (a' & Hp & Hb').
  exists a'. split; [exact Hp|].
  replace (c * (t / c + 1))
    with (t + Z.to_nat (Z.of_nat c - Z.of_nat t mod Z.of_nat c));
    [exact Hb'|].
  rewrite <- Nat2Z.inj_mod, <- Nat2Z.inj_sub, Nat2Z.id
    by (pose proof (Nat.mod_upper_bound t c); lia).
  pose proof (Nat.div_mod_eq t c). pose proof (Nat.mod_upper_bound t c). lia.
Qed.

(** Where the length is not a multiple of the chunk size the padding is
    the one the specification describes. *)
Lemma pad_to_chunk_size_unaligned (n t c : nat) (a : ndarray) :
  is_batch n t a -> 0 < c -> t mod c <> 0 ->
  exists a', pad_to_chunk_size (Z.of_nat c) a = Ok a' /\
             is_batch n (c * ceil_div t c) a'.
Proof.
  intros Ha Hc Hr. rewrite ceil_div_unaligned by assumption.
  now apply pad_to_chunk_size_batch.
Qed.

(** Where it is a multiple, one whole chunk of zeros is added. *)
Lemma pad_to_chunk_size_aligned (n t c : nat) (a : ndarray) :
  is_batch n t a -> 0 < c -> t mod c = 0 ->
  exists a', pad_to_chunk_size (Z.of_nat c) a = Ok a' /\
             is_batch n (t + c) a'.
Proof.
  intros Ha Hc Hr.
  destruct (pad_to_chunk_size_batch n t c a Ha Hc) as (a' & Hp & Hb).
  exists a'. split; [exact Hp|].
  replace (t + c) with (c * (t / c + 1)); [exact Hb|].
  pose proof (Nat.div_mod_eq t c). lia.
Qed.

(** C1 (the code departs from the claim).  A series of 4 timesteps with
    chunk size 2 is already aligned, and the padding of [simple_fourier]
    makes it 6 long: a whole chunk of zeros is appended, where the claim has
    the length stay 4. *)
Theorem pad_to_chunk_size_adds_chunk_when_aligned :
  pad_to_chunk_size 2 (array [[1; 2; 3; 4]]%Q)
  = Ok (array [[1; 2; 3; 4; 0; 0]]%Q)
  /\ 4 mod 2 = 0
  /\ ceil_div 4 2 * 2 = 4.
Proof. repeat split. Qed.

(** ** The frequency transform *)

Section SimpleFourier.

Variable rfft_abs : nat -> list Q -> list Q.
Variables n t c f : nat.
Variable a : ndarray.

Hypothesis rfft_abs_length :
  forall r, length (rfft_abs f r) = f / 2 + 1.
Hypothesis Ha : is_batch n t a.
Hypothesis Hn : 0 < n.
Hypothesis Hc : 0 < c.
Hypothesis Hf : 0 < f.

(** The run of [simple_fourier] on a batch: it returns, leaves its argument
    alone, and its result has one row per chunk. *)
Lemma simple_fourier_run :
  exists out,
    simple_fourier rfft_abs (Z.of_nat c) (Z.of_nat f) a = (a, Ok out) /\
    shape out = [n * (t / c + 1); f / 2 + 1; 3] /\
    well_formed out.
Proof.
  set (k := t / c + 1). set (b := f / 2 + 1).
  unfold simple_fourier, bind, get_arg, lift, ret.
  destruct (pad_to_chunk_size_batch n t c a Ha Hc) as (a1 & -> & H1).
  fold k in H1.
  (* the chunks *)
  assert (Hq : Z.to_nat (Z.of_nat (product (shape a1)) ÷ Z.of_nat c) = n * k).
  { destruct H1 as [-> _]. simpl.
    rewrite Z.quot_div_nonneg by lia.
    rewrite <- Nat2Z.inj_div, Nat2Z.id.
    replace (n * (c * k * 1)) with (n * k * c) by lia.
    apply Nat.div_mul. lia. }
  rewrite Hq, Nat2Z.id.
  destruct (reshape_batch n (c * k) (n * k) c a1 H1 ltac:(lia)) as [-> H2].
  (* the magnitudes *)
  destruct (abs_rfft_batch rfft_abs (n * k) c f _ rfft_abs_length H2 Hf)
    as (a3 & -> & H3).
  fold b in H3.
  (* back to one row per stream *)
  assert (Hw : product (shape a3) / dim 0 a = k * b).
  { destruct H3 as [-> _]. destruct (batch_dims n t a Ha) as [-> _]. simpl.
    replace (n * k * (b * 1)) with (k * b * n) by lia.
    apply Nat.div_mul. lia. }
  rewrite Hw. destruct (batch_dims n t a Ha) as [-> _].
  destruct (reshape_batch (n * k) b n (k * b) a3 H3 ltac:(lia)) as [-> H4].
  assert (Hkb : 0 < k * b) by (unfold k, b; lia).
  destruct (normalize_rows_batch n (k * b) _ H4 Hkb) as [-> H5].
  destruct H3 as [Hs3 _]. rewrite Hs3.
  destruct (reshape_batch n (k * b) (n * k) b _ H5 ltac:(lia)) as [-> H6].
  eexists; split; [reflexivity|]. split; [reflexivity|].
  apply stack3_well_formed. exact (proj2 H6).
Qed.

End SimpleFourier.

(** C2 (as amended).  On a batch of [n >= 1] streams and [t] timesteps,
    with positive chunk size [c] and FFT size [f], and [t] not a multiple of
    [c], the frequency transform returns an array of shape
    [(n * ceil(t / c), f / 2 + 1, 3)]: one row per chunk, [f / 2 + 1] bins
    in each, three planes.  The array holds that many elements. *)
Theorem simple_fourier_shape (rfft_abs : nat -> list Q -> list Q)
  (n t c f : nat) (a : ndarray) :
  (forall r, length (rfft_abs f r) = f / 2 + 1) ->
  is_batch n t a -> 0 < n -> 0 < c -> 0 < f -> t mod c <> 0 ->
  exists out,
    snd (simple_fourier rfft_abs (Z.of_nat c) (Z.of_nat f) a) = Ok out /\
    shape out = [n * ceil_div t c; f / 2 + 1; 3] /\
    well_formed out.
Proof.
  intros Hr Ha Hn Hc Hf Hm.
  destruct (simple_fourier_run rfft_abs n t c f a Hr Ha Hn Hc Hf)
    as (out & E & Hs & Hw).
  exists out. rewrite E, ceil_div_unaligned by assumption. auto.
Qed.

Lemma rfft_abs_small_length (r : list Q) :
  length (rfft_abs_small 2 r) = 2 / 2 + 1.
Proof. reflexivity. Qed.

Lemma array_is_batch_1_3 : is_batch 1 3 (array [[1; 2; 3]]%Q).
Proof. split; reflexivity. Qed.

Lemma simple_fourier_shape_witness :
  exists out,
    snd (simple_fourier rfft_abs_small 2 2 (array [[1; 2; 3]]%Q)) = Ok out /\
    shape out = [1 * ceil_div 3 2; 2 / 2 + 1; 3] /\
    well_formed out.
Proof.
  apply (simple_fourier_shape rfft_abs_small 1 3 2 2 (array [[1; 2; 3]]%Q)).
  - exact rfft_abs_small_length.
  - exact array_is_batch_1_3.
  - lia.
  - lia.
  - lia.
  - simpl. lia.
Defined.

(** C2 (as stated) fails: for one stream of 3 timesteps, chunk size 2 and
    FFT size 2 the claim gives the shape [(1, 2 * 2, 3)]; the transform
    returns an array of shape [(2, 2, 3)]. *)
Lemma simple_fourier_shape_not_as_stated :
  exists out,
    snd (simple_fourier rfft_abs_small 2 2 (array [[1; 2; 3]]%Q)) = Ok out /\
    shape out = [2; 2; 3] /\
    shape out <> [1; ceil_div 3 2 * (2 / 2 + 1); 3].
Proof.
  eexists. split; [reflexivity|]. split; [reflexivity|]. discriminate.
Qed.

(** ** The maximum and the minimum of a row *)

Lemma Qmax_cases (x y : Q) : Qmax x y = x \/ Qmax x y = y.
Proof.
  unfold Qmax, GenericMinMax.gmax. destruct (x ?= y)%Q; auto.
Qed.

Lemma Qmin_cases (x y : Q) : Qmin x y = x \/ Qmin x y = y.
Proof.
  unfold Qmin, GenericMinMax.gmin. destruct (x ?= y)%Q; auto.
Qed.

Lemma list_max_ge (r : list Q) (x : Q) : In x r -> (x <= list_max r)%Q.
Proof.
  destruct r as [|y r]; [contradiction|]. simpl.
  revert x; induction r as [|z r IH]; intros x Hx; simpl in *.
  - destruct Hx as [->|[]]. apply Qle_refl.
  - destruct Hx as [->|[->|Hx]].
    + eapply Qle_trans; [apply IH; auto | apply Q.le_max_r].
    + apply Q.le_max_l.
    + eapply Qle_trans; [apply IH; auto | apply Q.le_max_r].
Qed.

Lemma list_max_In (r : list Q) : r <> [] -> In (list_max r) r.
Proof.
  destruct r as [|y r]; [congruence|]. intros _. simpl.
  induction r as [|z r IH]; simpl; [auto|].
  destruct (Qmax_cases z (fold_right Qmax y r)) as [->| ->]; [auto|].
  destruct IH as [IH|IH]; auto.
Qed.

Lemma list_min_le (r : list Q) (x : Q) : In x r -> (list_min r <= x)%Q.
Proof.
  destruct r as [|y r]; [contradiction|]. simpl.
  revert x; induction r as [|z r IH]; intros x Hx; simpl in *.
  - destruct Hx as [->|[]]. apply Qle_refl.
  - destruct Hx as [->|[->|Hx]].
    + eapply Qle_trans; [apply Q.le_min_r | apply IH; auto].
    + apply Q.le_min_l.
    + eapply Qle_trans; [apply Q.le_min_r | apply IH; auto].
Qed.

Lemma list_min_In (r : list Q) : r <> [] -> In (list_min r) r.
Proof.
  destruct r as [|y r]; [congruence|]. intros _. simpl.
  induction r as [|z r IH]; simpl; [auto|].
  destruct (Qmin_cases z (fold_right Qmin y r)) as [->| ->]; [auto|].
  destruct IH as [IH|IH]; auto.
Qed.

Section Rows.

Variables (n t : nat) (a : ndarray).
Hypothesis Ha : is_batch n t a.

Lemma get2_In_row (i j : nat) :
  i < n -> j < t -> In (get2 a i j) (nth i (rows a) []).
Proof.
  intros Hi Hj. rewrite (batch_get2 n t a Ha) by assumption.
  apply nth_In. now rewrite (batch_row_width n t a Ha).
Qed.

Lemma row_In_get2 (i : nat) (x : Q) :
  i < n -> In x (nth i (rows a) []) -> exists j, j < t /\ get2 a i j = x.
Proof.
  intros Hi Hx. apply (In_nth _ _ 0%Q) in Hx. destruct Hx as (j & Hj & E).
  rewrite (batch_row_width n t a Ha) in Hj by assumption.
  exists j. split; [exact Hj|].
  now rewrite (batch_get2 n t a Ha).
Qed.

Lemma get2_In_data (i j : nat) : i < n -> j < t -> In (get2 a i j) (data a).
Proof.
  intros Hi Hj. unfold get2. apply nth_In.
  rewrite (batch_length n t a Ha). destruct (batch_dims n t a Ha) as [_ ->].
  nia.
Qed.

Lemma row_nonempty (i : nat) : i < n -> 0 < t -> nth i (rows a) [] <> [].
Proof.
  intros Hi Ht E. pose proof (batch_row_width n t a Ha i Hi) as H.
  rewrite E in H. simpl in H. lia.
Qed.

(** [list_max] of a row is its maximum, and the only one. *)
Lemma list_max_row_maximum (i : nat) :
  i < n -> 0 < t -> row_maximum t a i (list_max (nth i (rows a) [])).
Proof.
  intros Hi Ht. split.
  - intros j Hj. now apply list_max_ge, get2_In_row.
  - destruct (row_In_get2 i _ Hi (list_max_In _ (row_nonempty i Hi Ht)))
      as (j & Hj & E).
    exists j. split; [exact Hj|]. now rewrite E.
Qed.

Lemma row_maximum_unique (i : nat) (m m' : Q) :
  row_maximum t a i m -> row_maximum t a i m' -> (m == m')%Q.
Proof.
  intros [Hub (j & Hj & E)] [Hub' (j' & Hj' & E')].
  apply Qle_antisym.
  - rewrite <- E. apply Hub'. exact Hj.
  - rewrite <- E'. apply Hub. exact Hj'.
Qed.

Lemma nth_place_zeros_max (i : nat) :
  i < n ->
  nth i (place_zeros (map list_max (rows a)) 1%Q) 0%Q
  = (if Qeq_bool (list_max (nth i (rows a) [])) 0 then 1%Q
     else list_max (nth i (rows a) [])).
Proof.
  intros Hi. unfold place_zeros. rewrite map_map.
  rewrite (nth_indep _ 0%Q
             ((fun r => if Qeq_bool (list_max r) 0 then 1%Q else list_max r) []))
    by (rewrite length_map, (batch_rows_length n t a Ha); exact Hi).
  apply (map_nth (fun r => if Qeq_bool (list_max r) 0 then 1%Q else list_max r)).
Qed.

End Rows.

(** ** The row normalizer *)

Lemma normalize_rows_get2 (n t : nat) (a : ndarray) (i j : nat) :
  is_batch n t a -> i < n -> j < t ->
  get2 (div_rows a (place_zeros (map list_max (rows a)) 1%Q)) i j
  = (get2 a i j /
     (if Qeq_bool (list_max (nth i (rows a) [])) 0 then 1
      else list_max (nth i (rows a) [])))%Q.
Proof.
  intros Ha Hi Hj. unfold div_rows.
  rewrite (broadcast_rows_get2 Qdiv n t) by
    (try assumption; unfold place_zeros; rewrite !length_map;
     apply (batch_rows_length n t a Ha)).
  now rewrite (nth_place_zeros_max n t a Ha).
Qed.

Lemma place_zeros_nonzero (v : list Q) :
  Forall (fun m => ~ (m == 0)%Q) (place_zeros v 1%Q).
Proof.
  unfold place_zeros. rewrite Forall_map. apply Forall_forall. intros m _.
  destruct (Qeq_bool m 0) eqn:E.
  - discriminate.
  - now apply Qeq_bool_neq.
Qed.

Lemma row_divisors_batch (n t : nat) (a : ndarray) :
  is_batch n t a -> 0 < t ->
  row_divisors a = Ok (place_zeros (map list_max (rows a)) 1%Q) /\
  length (place_zeros (map list_max (rows a)) 1%Q) = n.
Proof.
  intros Ha Ht. unfold row_divisors, max_axis1.
  destruct (batch_dims n t a Ha) as [_ ->].
  destruct (Nat.eqb_spec t 0) as [->|_]; [lia|]. split; [reflexivity|].
  unfold place_zeros. rewrite !length_map. apply (batch_rows_length n t a Ha).
Qed.

(** C4.  On a batch without negative values the row normalizer divides
    every row by a number that is not 0: by 1 where the maximum of the row
    is 0 (the substitution of lines 171 and 198), by the maximum
    otherwise.  The batch it returns has the same shape and values in
    [0, 1]; in a row whose maximum is not 0 every element that equals the
    maximum becomes 1; a row whose maximum is 0 comes out all zero. *)
Theorem normalize_rows_unit_interval (n t : nat) (a : ndarray) :
  is_batch n t a -> 0 < t -> Forall (fun x => 0 <= x)%Q (data a) ->
  exists divisors out,
    row_divisors a = Ok divisors /\ length divisors = n /\
    Forall (fun d => ~ (d == 0)%Q) divisors /\
    normalize_rows a = Ok out /\ out = div_rows a divisors /\
    is_batch n t out /\
    forall i j, i < n -> j < t ->
      (forall m, row_maximum t a i m ->
                 ((m == 0)%Q -> (nth i divisors 0 == 1)%Q) /\
                 (~ (m == 0)%Q -> (nth i divisors 0 == m)%Q)) /\
      (0 <= get2 out i j /\ get2 out i j <= 1)%Q /\
      (forall m, row_maximum t a i m -> ~ (m == 0)%Q ->
                 (get2 a i j == m)%Q -> (get2 out i j == 1)%Q) /\
      (row_maximum t a i 0 -> (get2 out i j == 0)%Q).
Proof.
  intros Ha Ht Hpos.
  destruct (row_divisors_batch n t a Ha Ht) as [Ed Hlen].
  destruct (normalize_rows_batch n t a Ha Ht) as [E Hb].
  exists (place_zeros (map list_max (rows a)) 1%Q),
         (div_rows a (place_zeros (map list_max (rows a)) 1%Q)).
  split; [exact Ed|]. split; [exact Hlen|].
  split; [apply place_zeros_nonzero|].
  split; [exact E|]. split; [reflexivity|]. split; [exact Hb|].
  intros i j Hi Hj.
  rewrite (normalize_rows_get2 n t a i j Ha Hi Hj).
  rewrite (nth_place_zeros_max n t a Ha i Hi).
  pose proof (list_max_row_maximum n t a Ha i Hi Ht) as HM.
  set (M := list_max (nth i (rows a) [])) in *.
  set (x := get2 a i j).
  assert (Hx0 : (0 <= x)%Q).
  { rewrite Forall_forall in Hpos. apply Hpos.
    now apply (get2_In_data n t a Ha). }
  assert (HxM : (x <= M)%Q) by (apply (proj1 HM); exact Hj).
  clearbody M x.
  destruct (Qeq_bool M 0) eqn:Ez.
  - apply Qeq_bool_iff in Ez.
    assert (Hx : (x == 0)%Q) by lra.
    assert (Hd : (x / 1 == 0)%Q) by (rewrite Hx; reflexivity).
    split; [|split; [|split]].
    + intros m Hm. split; [intros _; reflexivity|].
      intros Hne. exfalso. apply Hne.
      rewrite (row_maximum_unique t a i m M Hm HM). exact Ez.
    + rewrite Hd. split; [apply Qle_refl | discriminate].
    + intros m Hm Hne _. exfalso. apply Hne.
      rewrite (row_maximum_unique t a i m M Hm HM). exact Ez.
    + intros _. exact Hd.
  - apply Qeq_bool_neq in Ez.
    assert (HMpos : (0 < M)%Q) by lra.
    split; [|split; [|split]].
    + intros m Hm. split.
      * intros Hz. exfalso. apply Ez.
        rewrite <- (row_maximum_unique t a i m M Hm HM). exact Hz.
      * intros _. symmetry. exact (row_maximum_unique t a i m M Hm HM).
    + split.
      * apply Qle_shift_div_l; [exact HMpos | lra].
      * apply Qle_shift_div_r; [exact HMpos | lra].
    + intros m Hm _ Hxm.
      assert (HxM' : (x == M)%Q).
      { rewrite Hxm. exact (row_maximum_unique t a i m M Hm HM). }
      rewrite HxM'. field. exact Ez.
    + intros H0. exfalso. apply Ez.
      exact (row_maximum_unique t a i M 0 HM H0).
Qed.

Lemma array_is_batch_2_3 :
  is_batch 2 3 (array [[2; 0; 4]; [0; 0; 0]]%Q).
Proof. split; reflexivity. Qed.

Lemma normalize_rows_unit_interval_witness :
  exists divisors out,
    row_divisors (array [[2; 0; 4]; [0; 0; 0]]%Q) = Ok divisors /\
    length divisors = 2 /\
    Forall (fun d => ~ (d == 0)%Q) divisors /\
    normalize_rows (array [[2; 0; 4]; [0; 0; 0]]%Q) = Ok out /\
    out = div_rows (array [[2; 0; 4]; [0; 0; 0]]%Q) divisors /\
    is_batch 2 3 out /\
    forall i j, i < 2 -> j < 3 ->
      (forall m, row_maximum 3 (array [[2; 0; 4]; [0; 0; 0]]%Q) i m ->
                 ((m == 0)%Q -> (nth i divisors 0 == 1)%Q) /\
                 (~ (m == 0)%Q -> (nth i divisors 0 == m)%Q)) /\
      (0 <= get2 out i j /\ get2 out i j <= 1)%Q /\
      (forall m, row_maximum 3 (array [[2; 0; 4]; [0; 0; 0]]%Q) i m ->
                 ~ (m == 0)%Q ->
                 (get2 (array [[2; 0; 4]; [0; 0; 0]]%Q) i j == m)%Q ->
                 (get2 out i j == 1)%Q) /\
      (row_maximum 3 (array [[2; 0; 4]; [0; 0; 0]]%Q) i 0 ->
       (get2 out i j == 0)%Q).
Proof.
  apply (normalize_rows_unit_interval 2 3).
  - exact array_is_batch_2_3.
  - lia.
  - simpl. repeat constructor; discriminate.
Defined.

(** ** The float64 nearest to a rational *)

Lemma floor_below_ceiling (y : Q) (f : Z) :
  (inject_Z f < y)%Q -> (f + 1 <= Qceiling y)%Z.
Proof.
  intros H. pose proof (Qle_ceiling y) as Hc.
  assert (Hlt : (inject_Z f < inject_Z (Qceiling y))%Q)
    by (eapply Qlt_le_trans; eassumption).
  rewrite <- Zlt_Qlt in Hlt. lia.
Qed.

Lemma round_half_even_bounds (y : Q) :
  (Qfloor y <= round_half_even y <= Qceiling y)%Z.
Proof.
  unfold round_half_even. pose proof (Qle_floor_ceiling y) as Hfc.
  rewrite <- Zle_Qle in Hfc.
  destruct (y - inject_Z (Qfloor y) ?= 1 # 2)%Q eqn:E.
  - apply Qeq_alt in E. destruct (Z.even (Qfloor y)); [lia|].
    split; [lia|]. apply floor_below_ceiling. lra.
  - lia.
  - apply Qgt_alt in E. split; [lia|]. apply floor_below_ceiling. lra.
Qed.

Lemma pow2_nonpositive (e : Z) :
  (e <= 0)%Z ->
  (0 < 2 ^ (- e))%Z /\ (pow2 e == 1 / inject_Z (2 ^ (- e)))%Q.
Proof.
  intros He. split; [apply Z.pow_pos_nonneg; lia|].
  unfold pow2. destruct (Z.leb_spec 0 e) as [H|H]; [|reflexivity].
  assert (e = 0%Z) by lia. subst e. reflexivity.
Qed.

Lemma floor_log2_below (x : Q) (b : Z) :
  (0 <= b)%Z -> (0 < x)%Q -> (x < inject_Z (2 ^ b))%Q ->
  (floor_log2 x < b)%Z.
Proof.
  intros Hb H0 Hx. unfold floor_log2.
  set (l := (Z.log2 (Qnum x) - Z.log2 (Z.pos (Qden x)))%Z).
  assert (Hl : (l <= b)%Z).
  { unfold l. destruct x as [n d]. unfold Qlt in H0, Hx.
    cbn [Qnum Qden inject_Z] in *.
    assert (Hp : (0 < 2 ^ b)%Z) by (apply Z.pow_pos_nonneg; lia).
    assert (Hle : (n <= Z.pos d * 2 ^ b)%Z) by lia.
    apply Z.log2_le_mono in Hle.
    rewrite Z.log2_mul_pow2 in Hle by lia. lia. }
  destruct (Qle_bool (pow2 l) x) eqn:E; [|lia].
  apply Qle_bool_iff in E.
  destruct (Z.eq_dec l b) as [Eb|Eb]; [|lia].
  exfalso. rewrite Eb in E. unfold pow2 in E.
  destruct (Z.leb_spec 0 b) as [_|H]; [|lia].
  apply (Qlt_irrefl x). eapply Qlt_le_trans; eassumption.
Qed.

(** The float64 model is a function of the number, whatever the fraction
    that stands for it: [floor_log2] is the one exponent [l] with
    [2^l <= x < 2^(l+1)]. *)
Lemma inject_pow2_pos (k : Z) : (0 <= k)%Z -> (0 < inject_Z (2 ^ k))%Q.
Proof.
  intros Hk. change 0%Q with (inject_Z 0). rewrite <- Zlt_Qlt.
  apply Z.pow_pos_nonneg; lia.
Qed.

Lemma pow2_ratio (a b : Z) :
  (0 <= a)%Z -> (0 <= b)%Z ->
  (pow2 (a - b) == inject_Z (2 ^ a) / inject_Z (2 ^ b))%Q.
Proof.
  intros Ha Hb. pose proof (inject_pow2_pos b Hb) as Hpb.
  unfold pow2. destruct (Z.leb_spec 0 (a - b)) as [H|H].
  - replace a with ((a - b) + b)%Z at 2 by lia.
    rewrite Z.pow_add_r by lia. rewrite inject_Z_mult. field. lra.
  - replace (- (a - b))%Z with (b - a)%Z by lia.
    pose proof (inject_pow2_pos (b - a) ltac:(lia)) as Hpd.
    replace b with ((b - a) + a)%Z at 2 by lia.
    rewrite Z.pow_add_r by lia. rewrite inject_Z_mult.
    pose proof (inject_pow2_pos a Ha) as Hpa. field. split; lra.
Qed.

Lemma pow2_le (e e' : Z) : (e <= e')%Z -> (pow2 e <= pow2 e')%Q.
Proof.
  intros H. set (b := Z.max (- e) 0).
  replace e with ((e + b) - b)%Z by lia.
  replace e' with ((e' + b) - b)%Z by lia.
  rewrite !pow2_ratio by lia.
  pose proof (inject_pow2_pos b ltac:(lia)) as Hpb.
  apply Qmult_le_compat_r.
  - rewrite <- Zle_Qle. apply Z.pow_le_mono_r; lia.
  - apply Qlt_le_weak, Qinv_lt_0_compat, Hpb.
Qed.

Lemma ratio_le (A B n : Z) (d : positive) :
  (0 < B)%Z -> (A * Z.pos d <= n * B)%Z ->
  (inject_Z A / inject_Z B <= n # d)%Q.
Proof.
  intros HB H. apply Qle_shift_div_r.
  - change 0%Q with (inject_Z 0). now rewrite <- Zlt_Qlt.
  - unfold Qle, Qmult, inject_Z. cbn [Qnum Qden]. lia.
Qed.

Lemma lt_ratio (A B n : Z) (d : positive) :
  (0 < B)%Z -> (n * B < A * Z.pos d)%Z ->
  (n # d < inject_Z A / inject_Z B)%Q.
Proof.
  intros HB H. apply Qlt_shift_div_l.
  - change 0%Q with (inject_Z 0). now rewrite <- Zlt_Qlt.
  - unfold Qlt, Qmult, inject_Z. cbn [Qnum Qden]. lia.
Qed.

Lemma floor_log2_spec (x : Q) :
  (0 < x)%Q ->
  (pow2 (floor_log2 x) <= x)%Q /\ (x < pow2 (floor_log2 x + 1))%Q.
Proof.
  intros H0. unfold floor_log2. destruct x as [n d].
  cbn [Qnum Qden]. unfold Qlt in H0. cbn [Qnum Qden] in H0.
  assert (Hn : (0 < n)%Z) by lia.
  pose proof (Z.log2_spec n Hn) as [Hn1 Hn2].
  pose proof (Z.log2_spec (Z.pos d) ltac:(lia)) as [Hd1 Hd2].
  pose proof (Z.log2_nonneg n) as Ha.
  pose proof (Z.log2_nonneg (Z.pos d)) as Hb.
  set (a := Z.log2 n) in *. set (b := Z.log2 (Z.pos d)) in *.
  assert (Hpa : (0 < 2 ^ a)%Z) by (apply Z.pow_pos_nonneg; lia).
  assert (Hpb : (0 < 2 ^ b)%Z) by (apply Z.pow_pos_nonneg; lia).
  rewrite Z.pow_succ_r in Hn2, Hd2 by lia.
  destruct (Qle_bool (pow2 (a - b)) (n # d)) eqn:E.
  - apply Qle_bool_iff in E. split; [exact E|].
    replace (a - b + 1)%Z with ((a + 1) - b)%Z by lia.
    rewrite pow2_ratio by lia. apply lt_ratio; [lia|].
    rewrite Z.pow_add_r by lia. change (2 ^ 1)%Z with 2%Z. nia.
  - split.
    + replace (a - b - 1)%Z with (a - (b + 1))%Z by lia.
      rewrite pow2_ratio by lia. rewrite Z.pow_add_r by lia.
      change (2 ^ 1)%Z with 2%Z. apply ratio_le; nia.
    + replace (a - b - 1 + 1)%Z with (a - b)%Z by lia.
      apply Qnot_le_lt. intros H. apply Qle_bool_iff in H. congruence.
Qed.

Lemma floor_log2_unique (x : Q) (l : Z) :
  (pow2 l <= x)%Q -> (x < pow2 (l + 1))%Q -> (0 < x)%Q -> floor_log2 x = l.
Proof.
  intros H1 H2 H0. destruct (floor_log2_spec x H0) as [H3 H4].
  destruct (Z.lt_trichotomy (floor_log2 x) l) as [H|[H|H]]; [|exact H|].
  - pose proof (pow2_le (floor_log2 x + 1) l ltac:(lia)). lra.
  - pose proof (pow2_le (l + 1) (floor_log2 x) ltac:(lia)). lra.
Qed.

Lemma floor_log2_comp (x x' : Q) :
  (0 < x)%Q -> (x == x')%Q -> floor_log2 x = floor_log2 x'.
Proof.
  intros H0 E. assert (H0' : (0 < x')%Q) by (rewrite <- E; exact H0).
  destruct (floor_log2_spec x' H0') as [H1 H2].
  apply floor_log2_unique;
    [rewrite E; exact H1 | rewrite E; exact H2 | exact H0].
Qed.

Lemma round_half_even_comp (y y' : Q) :
  (y == y')%Q -> round_half_even y = round_half_even y'.
Proof.
  intros E. unfold round_half_even. rewrite (Qfloor_comp y y' E).
  assert (Ec : (y - inject_Z (Qfloor y') ?= 1 # 2)%Q
               = (y' - inject_Z (Qfloor y') ?= 1 # 2)%Q)
    by (now rewrite E).
  now rewrite Ec.
Qed.

Lemma float64_comp (x x' : Q) : (x == x')%Q -> (float64 x == float64 x')%Q.
Proof.
  intros E. unfold float64.
  destruct (Qeq_bool x 0) eqn:E0.
  - apply Qeq_bool_iff in E0.
    assert (E0' : Qeq_bool x' 0 = true)
      by (apply Qeq_bool_iff; rewrite <- E; exact E0).
    rewrite E0'. reflexivity.
  - apply Qeq_bool_neq in E0.
    assert (E0' : Qeq_bool x' 0 = false).
    { destruct (Qeq_bool x' 0) eqn:E1; [|reflexivity].
      apply Qeq_bool_iff in E1. exfalso. apply E0. now rewrite E. }
    rewrite E0'.
    assert (Hpos : (0 < Qabs x)%Q).
    { pose proof (Qabs_nonneg x) as Hn.
      destruct (Qeq_dec (Qabs x) 0) as [Ez|Ez]; [|lra].
      exfalso. apply E0.
      pose proof (Qle_Qabs x). pose proof (Qle_Qabs (- x)).
      rewrite Qabs_opp in *. lra. }
    rewrite (floor_log2_comp (Qabs x) (Qabs x') Hpos) by (now rewrite E).
    cbv zeta.
    set (e := Z.max (floor_log2 (Qabs x') - 52) (-1074)).
    rewrite (round_half_even_comp (x / pow2 e) (x' / pow2 e))
      by (now rewrite E).
    reflexivity.
Qed.

Lemma pow2_pos (e : Z) : (0 < pow2 e)%Q.
Proof.
  set (b := Z.max (- e) 0).
  replace e with ((e + b) - b)%Z by lia.
  rewrite pow2_ratio by lia.
  apply Qlt_shift_div_l; [apply inject_pow2_pos; lia|].
  rewrite Qmult_0_l. apply inject_pow2_pos; lia.
Qed.

Lemma round_half_even_nonnegative (y : Q) :
  (0 <= y)%Q -> (0 <= round_half_even y)%Z.
Proof.
  intros H. apply Qfloor_resp_le in H. change (Qfloor 0) with 0%Z in H.
  unfold round_half_even.
  destruct (y - inject_Z (Qfloor y) ?= 1 # 2)%Q; [|lia|lia].
  destruct (Z.even (Qfloor y)); lia.
Qed.

Lemma float64_nonnegative (x : Q) : (0 <= x)%Q -> (0 <= float64 x)%Q.
Proof.
  intros H. unfold float64. destruct (Qeq_bool x 0); [apply Qle_refl|].
  cbv zeta. set (e := Z.max (floor_log2 (Qabs x) - 52) (-1074)).
  pose proof (pow2_pos e) as Hp.
  apply Qmult_le_0_compat; [|lra].
  change 0%Q with (inject_Z 0). rewrite <- Zle_Qle.
  apply round_half_even_nonnegative.
  apply Qle_shift_div_l; [exact Hp|]. lra.
Qed.

(** Rounding to float64 does not step over an integer: integers up to 255
    are float64 values. *)
Lemma float64_between (x : Q) (k : Z) :
  (0 <= x)%Q -> (x <= 255)%Q ->
  ((inject_Z k <= x)%Q -> (inject_Z k <= float64 x)%Q) /\
  ((x <= inject_Z k)%Q -> (float64 x <= inject_Z k)%Q).
Proof.
  intros H0 H1. unfold float64.
  destruct (Qeq_bool x 0) eqn:Ez.
  - apply Qeq_bool_iff in Ez. split; intros H; lra.
  - apply Qeq_bool_neq in Ez. assert (Hpos : (0 < x)%Q) by lra.
    pose proof (Qabs_pos x H0) as Ha.
    assert (Hl : (floor_log2 (Qabs x) < 8)%Z).
    { apply floor_log2_below; [lia | lra |].
      change (inject_Z (2 ^ 8)) with 256%Q. lra. }
    set (e := Z.max (floor_log2 (Qabs x) - 52) (-1074)).
    assert (He : (e <= 0)%Z) by (unfold e; lia).
    destruct (pow2_nonpositive e He) as [HP Ee].
    set (P := (2 ^ (- e))%Z) in *.
    assert (HPq : (0 < inject_Z P)%Q) by (rewrite <- (Zlt_Qlt 0); exact HP).
    assert (Ey : (x / pow2 e == x * inject_Z P)%Q).
    { rewrite Ee. field. lra. }
    pose proof (round_half_even_bounds (x / pow2 e)) as [Hlo Hhi].
    set (m := round_half_even (x / pow2 e)) in *.
    assert (Em : forall z, (inject_Z (z * P) * pow2 e == inject_Z z)%Q).
    { intros z. rewrite Ee, inject_Z_mult. field. lra. }
    assert (Hmono : forall z z', (z <= z')%Z ->
              (inject_Z z * pow2 e <= inject_Z z' * pow2 e)%Q).
    { intros z z' Hz. apply Qmult_le_compat_r.
      - now rewrite <- Zle_Qle.
      - rewrite Ee. apply Qlt_le_weak. apply Qlt_shift_div_l; lra. }
    split; intros H.
    + rewrite <- (Em k). apply Hmono.
      eapply Z.le_trans; [|exact Hlo].
      rewrite <- (Qfloor_Z (k * P)). apply Qfloor_resp_le.
      rewrite Ey, inject_Z_mult. apply Qmult_le_compat_r; lra.
    + rewrite <- (Em k). apply Hmono.
      eapply Z.le_trans; [exact Hhi|].
      rewrite <- (Qceiling_Z (k * P)). apply Qceiling_resp_le.
      rewrite Ey, inject_Z_mult. apply Qmult_le_compat_r; lra.
Qed.

(** ** From values to pixels (line 106) *)

(** C5 (as amended).  For a normalized value [v] in [0, 1] the pixel is
    the float64 product [v * 255] with its fractional part dropped, a
    number from 0 to 255.  It is not the product rounded to the nearest
    integer: it is [floor(v * 255)], or the integer just above where the
    float64 product rounds up to it. *)
Theorem pixel_floor (v : Q) :
  (0 <= v)%Q -> (v <= 1)%Q ->
  pixel v = Qfloor (float64_multiply v 255) /\
  (0 <= pixel v <= 255)%Z /\
  (Qfloor (v * 255) <= pixel v <= Qceiling (v * 255))%Z.
Proof.
  intros H0 H1. unfold pixel, astype_uint8, truncate, float64_multiply.
  assert (Hx0 : (0 <= v * 255)%Q) by lra.
  assert (Hx1 : (v * 255 <= 255)%Q) by lra.
  set (x := (v * 255)%Q) in *.
  pose proof (proj1 (float64_between x 0 Hx0 Hx1) Hx0) as Hp0.
  pose proof (proj2 (float64_between x 255 Hx0 Hx1) Hx1) as Hp1.
  pose proof (proj1 (float64_between x (Qfloor x) Hx0 Hx1) (Qfloor_le x))
    as Hlo.
  pose proof (proj2 (float64_between x (Qceiling x) Hx0 Hx1) (Qle_ceiling x))
    as Hhi.
  set (p := float64 x) in *.
  assert (Hb : Qle_bool 0 p = true) by (apply Qle_bool_iff; exact Hp0).
  rewrite Hb.
  apply Qfloor_resp_le in Hp0, Hp1, Hlo, Hhi.
  rewrite Qfloor_Z in Hp0, Hp1, Hlo, Hhi.
  rewrite Z.mod_small by lia. repeat split; lia.
Qed.

Lemma pixel_floor_witness :
  pixel (1 # 4) = Qfloor (float64_multiply (1 # 4) 255) /\
  (0 <= pixel (1 # 4) <= 255)%Z /\
  (Qfloor ((1 # 4) * 255) <= pixel (1 # 4) <= Qceiling ((1 # 4) * 255))%Z.
Proof.
  apply (pixel_floor (1 # 4)).
  - discriminate.
  - discriminate.
Defined.

(** The float64 nearest to 1/255 is below 1/255; its product with 255
    rounds to 1, and the pixel is 1, one above the floor of the exact
    product. *)
Lemma pixel_where_the_product_rounds_up :
  (float64 (1 # 255) == 4521260802379792 # 2 ^ 60)%Q /\
  (float64 (1 # 255) < 1 # 255)%Q /\
  pixel (float64 (1 # 255)) = 1%Z /\
  Qfloor (float64 (1 # 255) * 255) = 0%Z.
Proof.
  split; [vm_compute; reflexivity|]. split; [vm_compute; reflexivity|].
  split; vm_compute; reflexivity.
Qed.

(** C5 (as stated) fails: the identity transform turns the row (0, 1, 4)
    into (0, 1/4, 1), and the pixel written for 1/4 is 63, while
    1/4 * 255 = 63.75 is more than one half away from 63. *)
Lemma pixel_not_rounded :
  convert_one rfft_abs_small power_map int64_subtract 3 "nothing" 64 128
    (array [[0; 1; 4]]%Q)
  = Ok ([1; 3; 3], [0; 0; 0; 63; 63; 63; 255; 255; 255]%Z) /\
  pixel (1 # 4) = 63%Z /\
  ~ nearest_integer (pixel (1 # 4)) ((1 # 4) * 255).
Proof.
  split; [vm_compute; reflexivity|]. split; [vm_compute; reflexivity|].
  unfold nearest_integer. intros H. apply Qle_bool_iff in H.
  vm_compute in H. discriminate H.
Qed.

(** ** Arrays with equal values *)

Lemma Forall2_of_nth (l l' : list Q) :
  length l = length l' ->
  (forall k, k < length l -> (nth k l 0 == nth k l' 0)%Q) ->
  Forall2 Qeq l l'.
Proof.
  revert l'; induction l as [|x l IH]; intros [|y l'] Hl H; simpl in *;
    try discriminate; constructor.
  - apply (H 0). lia.
  - apply IH; [lia|]. intros k Hk. apply (H (S k)). lia.
Qed.

Lemma triple_Forall2 (l l' : list Q) :
  Forall2 Qeq l l' ->
  Forall2 Qeq (flat_map (fun x => [x; x; x]) l)
              (flat_map (fun x => [x; x; x]) l').
Proof.
  induction 1 as [|x y l l' Hxy _ IH]; simpl; repeat constructor; assumption.
Qed.

Section Extensionality.

Variables (n t : nat) (a b : ndarray).
Hypothesis Ha : is_batch n t a.
Hypothesis Hb : is_batch n t b.

Lemma batch_index (k : nat) :
  k < n * t -> k / t < n /\ k mod t < t /\ nth k (data a) 0%Q
                                          = get2 a (k / t) (k mod t).
Proof.
  intros Hk. assert (Ht : t <> 0) by nia.
  split; [apply Nat.Div0.div_lt_upper_bound; lia|].
  split; [now apply Nat.mod_upper_bound|].
  unfold get2. destruct (batch_dims n t a Ha) as [_ ->].
  f_equal. pose proof (Nat.div_mod_eq k t). lia.
Qed.

Lemma batch_Forall (P : Q -> Prop) :
  (forall i j, i < n -> j < t -> P (get2 a i j)) -> Forall P (data a).
Proof.
  intros H. apply Forall_nth. intros k d Hk.
  rewrite (batch_length n t a Ha) in Hk.
  rewrite (nth_indep _ d 0%Q) by (rewrite (batch_length n t a Ha); exact Hk).
  destruct (batch_index k Hk) as (Hi & Hj & ->). now apply H.
Qed.

End Extensionality.

Lemma batch_same_values (n t : nat) (a b : ndarray) :
  is_batch n t a -> is_batch n t b ->
  (forall i j, i < n -> j < t -> (get2 a i j == get2 b i j)%Q) ->
  same_values a b.
Proof.
  intros Ha Hb H. split.
  - destruct Ha as [-> _], Hb as [-> _]. reflexivity.
  - apply Forall2_of_nth.
    + now rewrite (batch_length n t a Ha), (batch_length n t b Hb).
    + intros k Hk. rewrite (batch_length n t a Ha) in Hk.
      destruct (batch_index n t a Ha k Hk) as (Hi & Hj & ->).
      destruct (batch_index n t b Hb k Hk) as (_ & _ & ->).
      now apply H.
Qed.

Lemma stack3_same_values (a b : ndarray) :
  same_values a b -> same_values (stack3 a) (stack3 b).
Proof.
  intros [Hs Hd]. split; simpl; [now rewrite Hs | now apply triple_Forall2].
Qed.

(** ** The minimum of a row *)

Section RowMinimum.

Variables (n t : nat) (a : ndarray).
Hypothesis Ha : is_batch n t a.

Lemma list_min_row_minimum (i : nat) :
  i < n -> 0 < t -> row_minimum t a i (list_min (nth i (rows a) [])).
Proof.
  intros Hi Ht. split.
  - intros j Hj. now apply list_min_le, (get2_In_row n t a Ha).
  - destruct (row_In_get2 n t a Ha i _ Hi
                (list_min_In _ (row_nonempty n t a Ha i Hi Ht)))
      as (j & Hj & E).
    exists j. split; [exact Hj|]. now rewrite E.
Qed.

Lemma row_minimum_unique (i : nat) (m m' : Q) :
  row_minimum t a i m -> row_minimum t a i m' -> (m == m')%Q.
Proof.
  intros [Hlb (j & Hj & E)] [Hlb' (j' & Hj' & E')].
  apply Qle_antisym.
  - rewrite <- E'. apply Hlb. exact Hj'.
  - rewrite <- E. apply Hlb'. exact Hj.
Qed.

Lemma nth_map_list_min (i : nat) :
  i < n ->
  nth i (map list_min (rows a)) 0%Q = list_min (nth i (rows a) []).
Proof.
  intros Hi. apply (map_nth list_min (rows a) [] i).
Qed.

(** After [time_series -= np.min(...)] an element is what it was, less the
    minimum of its row, in the arithmetic of the dtype. *)
Lemma shifted_get2_raw (subtract : Q -> Q -> Q) (i j : nat) :
  i < n -> j < t ->
  get2 (shifted subtract a) i j
  = subtract (get2 a i j) (list_min (nth i (rows a) [])).
Proof.
  intros Hi Hj. unfold shifted.
  rewrite (broadcast_rows_get2 subtract n t) by
    (try assumption; rewrite length_map; apply (batch_rows_length n t a Ha)).
  now rewrite nth_map_list_min.
Qed.

Lemma row_In_rows (i : nat) : i < n -> In (nth i (rows a) []) (rows a).
Proof.
  intros Hi. apply nth_In. now rewrite (batch_rows_length n t a Ha).
Qed.

Lemma exact_on_row (subtract : Q -> Q -> Q) (i : nat) (x y : Q) :
  exact_on subtract a -> i < n ->
  In x (nth i (rows a) []) -> In y (nth i (rows a) []) ->
  (subtract x y == x - y)%Q.
Proof.
  intros Hex Hi Hx Hy. unfold exact_on in Hex. rewrite Forall_forall in Hex.
  exact (Hex _ (row_In_rows i Hi) x y Hx Hy).
Qed.

Lemma sub_min_get2 (subtract : Q -> Q -> Q) (i j : nat) :
  exact_on subtract a -> i < n -> j < t ->
  (get2 (shifted subtract a) i j
   == get2 a i j - list_min (nth i (rows a) []))%Q.
Proof.
  intros Hex Hi Hj. rewrite (shifted_get2_raw subtract i j Hi Hj).
  apply (exact_on_row subtract i); try assumption.
  - now apply (get2_In_row n t a Ha).
  - apply list_min_In, (row_nonempty n t a Ha i Hi). lia.
Qed.

End RowMinimum.

(** ** The identity transform *)

Lemma shifted_batch (subtract : Q -> Q -> Q) (n t : nat) (a : ndarray) :
  is_batch n t a -> is_batch n t (shifted subtract a).
Proof.
  intros Ha. apply broadcast_rows_batch; [exact Ha|].
  rewrite length_map. apply (batch_rows_length n t a Ha).
Qed.

Lemma nothing_run (subtract : Q -> Q -> Q) (n t : nat) (a : ndarray) :
  is_batch n t a -> 0 < t ->
  nothing subtract a
  = (shifted subtract a, Ok (stack3 (normalized (shifted subtract a)))).
Proof.
  intros Ha Ht. unfold nothing, bind, get_arg, put_arg, lift, ret, min_axis1.
  destruct (batch_dims n t a Ha) as [_ ->].
  destruct (Nat.eqb_spec t 0) as [->|_]; [lia|].
  fold (shifted subtract a).
  destruct (normalize_rows_batch n t _ (shifted_batch subtract n t a Ha) Ht)
    as [-> _].
  reflexivity.
Qed.

(** Where the subtraction gives no negative difference of a value and a
    smaller one, no value is negative after the minimum is subtracted. *)
Lemma shifted_nonnegative (subtract : Q -> Q -> Q) (n t : nat) (a : ndarray)
  (i j : nat) :
  is_batch n t a ->
  Forall (fun r => forall x y, In x r -> In y r -> (y <= x)%Q ->
                               (0 <= subtract x y)%Q) (rows a) ->
  i < n -> j < t -> (0 <= get2 (shifted subtract a) i j)%Q.
Proof.
  intros Ha Hs Hi Hj. assert (Ht : 0 < t) by lia.
  rewrite (shifted_get2_raw n t a Ha subtract i j Hi Hj).
  rewrite Forall_forall in Hs.
  apply (Hs _ (row_In_rows n t a Ha i Hi)).
  - now apply (get2_In_row n t a Ha).
  - apply list_min_In, (row_nonempty n t a Ha i Hi Ht).
  - apply list_min_le. now apply (get2_In_row n t a Ha).
Qed.

Lemma exact_on_sign (subtract : Q -> Q -> Q) (a : ndarray) :
  exact_on subtract a ->
  Forall (fun r => forall x y, In x r -> In y r -> (y <= x)%Q ->
                               (0 <= subtract x y)%Q) (rows a).
Proof.
  unfold exact_on. intros H. eapply Forall_impl; [|exact H].
  intros r Hr x y Hx Hy Hle. simpl in Hr. rewrite (Hr x y Hx Hy). lra.
Qed.

(** Adding a constant to a row moves its minimum by that constant. *)
Lemma add_rows_get2 (n t : nat) (a : ndarray) (cs : list Q) (i j : nat) :
  is_batch n t a -> length cs = n -> i < n -> j < t ->
  get2 (add_rows a cs) i j = (get2 a i j + nth i cs 0)%Q.
Proof.
  intros Ha Hcs Hi Hj. unfold add_rows.
  now rewrite (broadcast_rows_get2 Qplus n t).
Qed.

Lemma add_rows_minimum (n t : nat) (a : ndarray) (cs : list Q) (i : nat)
  (m : Q) :
  is_batch n t a -> length cs = n -> i < n ->
  row_minimum t a i m -> row_minimum t (add_rows a cs) i (m + nth i cs 0)%Q.
Proof.
  intros Ha Hcs Hi [Hlb (j & Hj & E)]. split.
  - intros j' Hj'. rewrite (add_rows_get2 n t) by assumption.
    pose proof (Hlb j' Hj'). lra.
  - exists j. split; [exact Hj|].
    rewrite (add_rows_get2 n t) by assumption. now rewrite E.
Qed.

Lemma Qcompare_plus_r (x y c : Q) : (x + c ?= y + c)%Q = (x ?= y)%Q.
Proof.
  destruct (Qcompare_spec x y) as [E|E|E].
  - apply Qeq_alt. now rewrite E.
  - apply Qlt_alt. now apply Qplus_lt_l.
  - apply Qgt_alt. now apply Qplus_lt_l.
Qed.

Lemma list_min_map_add (r : list Q) (c : Q) :
  r <> [] -> list_min (map (fun x => x + c)%Q r) = (list_min r + c)%Q.
Proof.
  destruct r as [|x r]; [congruence|]. intros _. simpl.
  induction r as [|y r IH]; simpl; [reflexivity|].
  rewrite IH. generalize (fold_right Qmin x r). intros m.
  unfold Qmin, GenericMinMax.gmin.
  rewrite Qcompare_plus_r. now destruct (y ?= m)%Q.
Qed.

Lemma add_rows_row (n t : nat) (a : ndarray) (cs : list Q) (i : nat) :
  is_batch n t a -> length cs = n -> i < n ->
  nth i (rows (add_rows a cs)) []
  = map (fun x => x + nth i cs 0)%Q (nth i (rows a) []).
Proof.
  intros Ha Hcs Hi. unfold add_rows.
  rewrite (broadcast_rows_rows Qplus n t) by assumption.
  pose proof (batch_rows_length n t a Ha) as Hn.
  rewrite (nth_map2 (fun r m => map (fun x => x + m)%Q r) (rows a) cs i
             [] 0%Q []) by lia.
  reflexivity.
Qed.

(** Where the subtraction gives the same difference for the values of a
    row moved by a constant as for the values themselves, the array left
    by the subtraction of the minima is the same for the moved batch. *)
Lemma shifted_add_rows (subtract : Q -> Q -> Q) (n t : nat) (a : ndarray)
  (cs : list Q) (i j : nat) :
  is_batch n t a -> length cs = n ->
  (forall i x y, i < n -> In x (nth i (rows a) []) ->
                 In y (nth i (rows a) []) ->
                 (subtract (x + nth i cs 0) (y + nth i cs 0)
                  == subtract x y)%Q) ->
  i < n -> j < t ->
  (get2 (shifted subtract (add_rows a cs)) i j
   == get2 (shifted subtract a) i j)%Q.
Proof.
  intros Ha Hcs Hshift Hi Hj. assert (Ht : 0 < t) by lia.
  pose proof (broadcast_rows_batch Qplus n t a cs Ha Hcs) as Hb.
  fold (add_rows a cs) in Hb.
  rewrite (shifted_get2_raw n t _ Hb subtract i j Hi Hj).
  rewrite (shifted_get2_raw n t a Ha subtract i j Hi Hj).
  rewrite (add_rows_get2 n t) by assumption.
  rewrite (add_rows_row n t a cs i Ha Hcs Hi).
  rewrite list_min_map_add by (apply (row_nonempty n t a Ha i Hi Ht)).
  apply Hshift; [exact Hi | |].
  - now apply (get2_In_row n t a Ha).
  - apply list_min_In, (row_nonempty n t a Ha i Hi Ht).
Qed.

(** The subtraction of int64 is one that does: it is the difference modulo
    2^64. *)
Lemma int64_subtract_moved (x y c : Z) :
  int64_subtract (inject_Z x + inject_Z c) (inject_Z y + inject_Z c)
  = int64_subtract (inject_Z x) (inject_Z y).
Proof.
  unfold int64_subtract. rewrite <- !inject_Z_plus, !Qfloor_Z.
  f_equal. f_equal. lia.
Qed.

(** So does the subtraction of float64, the rounded difference, and its
    difference of a value and a smaller one is not negative. *)
Lemma float64_subtract_moved (x y c : Q) :
  (float64_subtract (x + c) (y + c) == float64_subtract x y)%Q.
Proof. unfold float64_subtract. apply float64_comp. ring. Qed.

Lemma float64_subtract_sign (x y : Q) :
  (y <= x)%Q -> (0 <= float64_subtract x y)%Q.
Proof. intros H. apply float64_nonnegative. lra. Qed.

(** The normalization of two batches with equal values has equal values. *)
Lemma row_maximum_ext (n t : nat) (a b : ndarray) (i : nat) (m : Q) :
  (forall j, j < t -> (get2 a i j == get2 b i j)%Q) ->
  row_maximum t a i m -> row_maximum t b i m.
Proof.
  intros H [Hub (j & Hj & E)]. split.
  - intros j' Hj'. rewrite <- (H j' Hj'). now apply Hub.
  - exists j. split; [exact Hj|]. now rewrite <- (H j Hj).
Qed.

Lemma normalized_ext (n t : nat) (a b : ndarray) (i j : nat) :
  is_batch n t a -> is_batch n t b ->
  (forall i j, i < n -> j < t -> (get2 a i j == get2 b i j)%Q) ->
  i < n -> j < t ->
  (get2 (normalized a) i j == get2 (normalized b) i j)%Q.
Proof.
  intros Ha Hb H Hi Hj. assert (Ht : 0 < t) by lia. unfold normalized.
  rewrite (normalize_rows_get2 n t a i j Ha Hi Hj).
  rewrite (normalize_rows_get2 n t b i j Hb Hi Hj).
  pose proof (list_max_row_maximum n t a Ha i Hi Ht) as HMa.
  pose proof (list_max_row_maximum n t b Hb i Hi Ht) as HMb.
  apply (row_maximum_ext n t a b i) in HMa; [|intros; now apply H].
  pose proof (row_maximum_unique t b i _ _ HMa HMb) as HM.
  pose proof (H i j Hi Hj) as Hx.
  set (Ma := list_max (nth i (rows a) [])) in *.
  set (Mb := list_max (nth i (rows b) [])) in *.
  clearbody Ma Mb.
  destruct (Qeq_bool Ma 0) eqn:Ea, (Qeq_bool Mb 0) eqn:Eb.
  - now rewrite Hx.
  - apply Qeq_bool_iff in Ea. apply Qeq_bool_neq in Eb.
    exfalso. apply Eb. now rewrite <- HM.
  - apply Qeq_bool_iff in Eb. apply Qeq_bool_neq in Ea.
    exfalso. apply Ea. now rewrite HM.
  - now rewrite Hx, HM.
Qed.


Lemma array_is_batch_2_2 : is_batch 2 2 (array [[-1; 3]; [5; 5]]%Q).
Proof. split; reflexivity. Qed.

Lemma int64_exact_on_example :
  exact_on int64_subtract (array [[-1; 3]; [5; 5]]%Q).
Proof. check_exact_on. Qed.



(** In float64 both conditions hold of every batch: there the values after
    the subtraction are never negative, and a batch moved by exact
    constants has the result of the batch. *)
Lemma nothing_float64_translation_invariant (n t : nat) (a : ndarray)
  (cs : list Q) :
  is_batch n t a -> 0 < t -> length cs = n ->
  exists before_normalization out out',
    nothing float64_subtract a = (before_normalization, Ok out) /\
    Forall (fun x => 0 <= x)%Q (data before_normalization) /\
    snd (nothing float64_subtract (add_rows a cs)) = Ok out' /\
    same_values out' out.
Proof.
  intros Ha Ht Hcs.
  pose proof (broadcast_rows_batch Qplus n t a cs Ha Hcs) as Hb.
  fold (add_rows a cs) in Hb.
  pose proof (shifted_batch float64_subtract n t a Ha) as Hsa.
  pose proof (shifted_batch float64_subtract n t _ Hb) as Hsb.
  exists (shifted float64_subtract a),
         (stack3 (normalized (shifted float64_subtract a))),
         (stack3 (normalized (shifted float64_subtract (add_rows a cs)))).
  split; [now apply (nothing_run float64_subtract n t)|]. split.
  - apply (batch_Forall n t _ Hsa). intros i j Hi Hj.
    apply (shifted_nonnegative float64_subtract n t); try assumption.
    apply Forall_forall. intros r _ x y _ _. apply float64_subtract_sign.
  - split; [now rewrite (nothing_run float64_subtract n t _ Hb Ht)|].
    apply stack3_same_values. apply (batch_same_values n t).
    + apply (proj2 (normalize_rows_batch n t _ Hsb Ht)).
    + apply (proj2 (normalize_rows_batch n t _ Hsa Ht)).
    + intros i j Hi Hj. apply (normalized_ext n t); try assumption.
      intros i' j' Hi' Hj'.
      apply (shifted_add_rows float64_subtract n t); try assumption.
      intros i0 x y _ _ _. apply float64_subtract_moved.
Qed.


(** ** Three identical planes *)

Lemma nth_triple (l : list Q) (m k : nat) :
  k < 3 -> nth (m * 3 + k) (flat_map (fun x => [x; x; x]) l) 0%Q = nth m l 0%Q.
Proof.
  intros Hk. revert m; induction l as [|x l IH]; intros m.
  - simpl. now destruct (m * 3 + k), m.
  - destruct m as [|m].
    + destruct k as [|[|[|k]]]; simpl; (reflexivity || lia).
    + change (S m * 3 + k) with (S (S (S (m * 3 + k)))). simpl. apply IH.
Qed.

Lemma stack3_planes (b : ndarray) :
  length (shape b) = 2 ->
  dim 2 (stack3 b) = 3 /\
  forall i j,
    get3 (stack3 b) i j 0 = get3 (stack3 b) i j 1 /\
    get3 (stack3 b) i j 1 = get3 (stack3 b) i j 2.
Proof.
  intros H. destruct b as [[|r [|c [|x s]]] d]; try discriminate H.
  unfold get3, dim, stack3. simpl. split; [reflexivity|].
  intros i j. rewrite !nth_triple by lia. split; reflexivity.
Qed.

Lemma abs_rfft_shape (rfft_abs : nat -> list Q -> list Q) (a b : ndarray)
  (f : Z) :
  abs_rfft rfft_abs a f = Ok b -> length (shape b) = 2.
Proof.
  unfold abs_rfft. destruct (f <? 1)%Z; [discriminate|].
  intros E. injection E as <-. reflexivity.
Qed.

Lemma reshape_shape (a b : ndarray) (s : list nat) :
  reshape a s = Ok b -> shape b = s.
Proof.
  unfold reshape. destruct (product s =? product (shape a)); [|discriminate].
  intros E. injection E as <-. reflexivity.
Qed.

Lemma normalize_rows_shape (a b : ndarray) :
  normalize_rows a = Ok b -> shape b = shape a.
Proof.
  unfold normalize_rows, row_divisors, max_axis1.
  destruct (dim 1 a =? 0); [discriminate|].
  simpl. intros E. injection E as <-. reflexivity.
Qed.

Section Planes.

Variable rfft_abs : nat -> list Q -> list Q.
Variable signal_spectrogram : list Q -> result ndarray.
Variable subtract : Q -> Q -> Q.

Lemma simple_fourier_stacked (c f : Z) (a a' out : ndarray) :
  simple_fourier rfft_abs c f a = (a', Ok out) ->
  exists b, out = stack3 b /\ length (shape b) = 2.
Proof.
  intros H. unfold simple_fourier in H. run_in H; try discriminate.
  injection H as _ <-. eexists. split; [reflexivity|].
  match goal with
  | E : reshape _ (shape ?x) = Ok ?y |- length (shape ?y) = 2 =>
      rewrite (reshape_shape _ _ _ E)
  end.
  eapply abs_rfft_shape. eassumption.
Qed.

Lemma nothing_stacked (a a' out : ndarray) :
  length (shape a) = 2 ->
  nothing subtract a = (a', Ok out) ->
  exists b, out = stack3 b /\ length (shape b) = 2.
Proof.
  intros Hs H. unfold nothing in H. run_in H; try discriminate.
  injection H as _ <-. eexists. split; [reflexivity|].
  match goal with
  | E : normalize_rows _ = Ok ?y |- length (shape ?y) = 2 =>
      rewrite (normalize_rows_shape _ _ E)
  end.
  exact Hs.
Qed.

Lemma spectrogram_stacked (a a' out : ndarray) :
  (forall x s, signal_spectrogram x = Ok s -> length (shape s) = 2) ->
  spectrogram signal_spectrogram a = (a', Ok out) ->
  exists b, out = stack3 b /\ length (shape b) = 2.
Proof.
  intros Hsp H. unfold spectrogram in H. run_in H; try discriminate.
  injection H as _ <-. eexists. split; [reflexivity|].
  eapply Hsp. eassumption.
Qed.

End Planes.

(** C7.  Whatever the method, when [extract] returns an array for a 2-D
    batch, the array has three planes along its last axis and they are
    identical: [out[i][j][0] = out[i][j][1] = out[i][j][2]] for all [i],
    [j].  (The spectrogram of the library is a 2-D array.) *)
Theorem extract_planes_identical
  (rfft_abs : nat -> list Q -> list Q)
  (signal_spectrogram : list Q -> result ndarray)
  (subtract : Q -> Q -> Q)
  (method : string) (kw : kwargs) (a a' out : ndarray) :
  (forall x s, signal_spectrogram x = Ok s -> length (shape s) = 2) ->
  length (shape a) = 2 ->
  extract rfft_abs signal_spectrogram subtract method kw a = (a', Ok out) ->
  dim 2 out = 3 /\
  forall i j,
    get3 out i j 0 = get3 out i j 1 /\ get3 out i j 1 = get3 out i j 2.
Proof.
  intros Hsp Hs H.
  assert (Hb : exists b, out = stack3 b /\ length (shape b) = 2).
  { unfold extract, call_simple_fourier in H.
    destruct (String.eqb method "fft").
    - destruct (forallb _ kw); [|discriminate H].
      eapply simple_fourier_stacked; eassumption.
    - destruct (String.eqb method "spectrogram").
      + eapply spectrogram_stacked; eassumption.
      + destruct (String.eqb method "nothing"); [|discriminate H].
        eapply nothing_stacked; eassumption. }
  destruct Hb as (b & -> & Hb). now apply stack3_planes.
Qed.

Lemma power_map_2d (x : list Q) (s : ndarray) :
  power_map x = Ok s -> length (shape s) = 2.
Proof. intros E. injection E as <-. reflexivity. Qed.

Lemma extract_planes_identical_witness :
  dim 2 (stack3 (normalized
                   (shifted int64_subtract (array [[-1; 3]; [5; 5]]%Q)))) = 3
  /\
  forall i j,
    get3 (stack3 (normalized
                    (shifted int64_subtract (array [[-1; 3]; [5; 5]]%Q))))
      i j 0
    = get3 (stack3 (normalized
                      (shifted int64_subtract (array [[-1; 3]; [5; 5]]%Q))))
        i j 1 /\
    get3 (stack3 (normalized
                    (shifted int64_subtract (array [[-1; 3]; [5; 5]]%Q))))
      i j 1
    = get3 (stack3 (normalized
                      (shifted int64_subtract (array [[-1; 3]; [5; 5]]%Q))))
        i j 2.
Proof.
  apply (extract_planes_identical rfft_abs_small power_map int64_subtract
           "nothing" [] (array [[-1; 3]; [5; 5]]%Q)
           (shifted int64_subtract (array [[-1; 3]; [5; 5]]%Q))).
  - exact power_map_2d.
  - reflexivity.
  - apply (nothing_run int64_subtract 2 2); [exact array_is_batch_2_2 | lia].
Defined.

(** ** The selector *)

Lemma pad_to_chunk_size_raises (c : Z) (a : ndarray) (e : exn) :
  pad_to_chunk_size c a = Raise e -> e = ValueError \/ e = ZeroDivisionError.
Proof.
  unfold pad_to_chunk_size, py_mod, pad.
  destruct (c =? 0)%Z; simpl; [intros [= <-]; auto|].
  destruct (_ <? 0)%Z; [intros [= <-]; auto | discriminate].
Qed.

Lemma reshape_raises (a : ndarray) (s : list nat) (e : exn) :
  reshape a s = Raise e -> e = ValueError.
Proof.
  unfold reshape. destruct (_ =? _); [discriminate | now intros [= <-]].
Qed.

Lemma abs_rfft_raises (rfft_abs : nat -> list Q -> list Q) (a : ndarray)
  (f : Z) (e : exn) :
  abs_rfft rfft_abs a f = Raise e -> e = ValueError.
Proof.
  unfold abs_rfft. destruct (_ <? _)%Z; [now intros [= <-] | discriminate].
Qed.

Lemma normalize_rows_raises (a : ndarray) (e : exn) :
  normalize_rows a = Raise e -> e = ValueError.
Proof.
  unfold normalize_rows, row_divisors, max_axis1.
  destruct (_ =? _); simpl; [now intros [= <-] | discriminate].
Qed.

Lemma min_axis1_raises (a : ndarray) (e : exn) :
  min_axis1 a = Raise e -> e = ValueError.
Proof.
  unfold min_axis1. destruct (_ =? _); [now intros [= <-] | discriminate].
Qed.

Section Selector.

Variable rfft_abs : nat -> list Q -> list Q.
Variable signal_spectrogram : list Q -> result ndarray.
Variable subtract : Q -> Q -> Q.

Lemma simple_fourier_raises (c f : Z) (a a' : ndarray) (e : exn) :
  simple_fourier rfft_abs c f a = (a', Raise e) ->
  e = ValueError \/ e = ZeroDivisionError.
Proof.
  intros H. unfold simple_fourier in H. run_in H; try discriminate;
    injection H as _ <-;
    eauto using pad_to_chunk_size_raises, reshape_raises, abs_rfft_raises,
      normalize_rows_raises.
Qed.

Lemma call_simple_fourier_raises (kw : kwargs) (a a' : ndarray) (e : exn) :
  call_simple_fourier rfft_abs kw a = (a', Raise e) ->
  e = ValueError \/ e = ZeroDivisionError \/ e = TypeError.
Proof.
  unfold call_simple_fourier. destruct (forallb _ kw).
  - intros H. apply simple_fourier_raises in H. tauto.
  - intros [= _ <-]. auto.
Qed.

Lemma nothing_raises (a a' : ndarray) (e : exn) :
  nothing subtract a = (a', Raise e) -> e = ValueError.
Proof.
  intros H. unfold nothing in H. run_in H; try discriminate;
    injection H as _ <-; eauto using min_axis1_raises, normalize_rows_raises.
Qed.

Lemma spectrogram_raises (a a' : ndarray) (e : exn) :
  spectrogram signal_spectrogram a = (a', Raise e) ->
  exists x, signal_spectrogram x = Raise e.
Proof.
  intros H. unfold spectrogram in H. run_in H; try discriminate.
  injection H as _ <-. eauto.
Qed.

Lemma extract_fft (kw : kwargs) :
  extract rfft_abs signal_spectrogram subtract "fft" kw = call_simple_fourier rfft_abs kw.
Proof. reflexivity. Qed.

Lemma extract_spectrogram (kw : kwargs) :
  extract rfft_abs signal_spectrogram subtract "spectrogram" kw
  = spectrogram signal_spectrogram.
Proof. reflexivity. Qed.

Lemma extract_nothing (kw : kwargs) :
  extract rfft_abs signal_spectrogram subtract "nothing" kw = nothing subtract.
Proof. reflexivity. Qed.

Lemma extract_other (method : string) (kw : kwargs) :
  ~ In method methods ->
  extract rfft_abs signal_spectrogram subtract method kw = raise invalid_method.
Proof.
  intros H. unfold extract, methods in *. simpl in H.
  destruct (String.eqb_spec method "fft") as [->|_]; [tauto|].
  destruct (String.eqb_spec method "spectrogram") as [->|_]; [tauto|].
  destruct (String.eqb_spec method "nothing") as [->|_]; [tauto|].
  reflexivity.
Qed.

End Selector.

(** C3 (as amended).  [extract] selects by equality of strings, and the
    names it knows are exactly "fft", "spectrogram" and "nothing": these
    run [simple_fourier] (with the keyword arguments), [spectrogram] and
    [nothing], and the call ends in the unsupported-method exception for
    exactly the other names.  (The library's spectrogram raises its own
    exceptions, not this one.) *)
Theorem extract_dispatch
  (rfft_abs : nat -> list Q -> list Q)
  (signal_spectrogram : list Q -> result ndarray)
  (subtract : Q -> Q -> Q) (kw : kwargs) :
  (forall x msg, signal_spectrogram x <> Raise (Exception msg)) ->
  extract rfft_abs signal_spectrogram subtract "fft" kw
  = call_simple_fourier rfft_abs kw /\
  extract rfft_abs signal_spectrogram subtract "spectrogram" kw
  = spectrogram signal_spectrogram /\
  extract rfft_abs signal_spectrogram subtract "nothing" kw
  = nothing subtract /\
  forall method a,
    snd (extract rfft_abs signal_spectrogram subtract method kw a)
    = Raise invalid_method <-> ~ In method methods.
Proof.
  intros Hsp. repeat split; try reflexivity.
  - intros H Hin.
    destruct (extract rfft_abs signal_spectrogram subtract method kw a)
      as [a' r] eqn:E.
    simpl in H. subst r. unfold methods in Hin. simpl in Hin.
    destruct Hin as [<-|[<-|[<-|[]]]].
    + rewrite extract_fft in E. apply call_simple_fourier_raises in E.
      unfold invalid_method in E. destruct E as [E|[E|E]]; discriminate E.
    + rewrite extract_spectrogram in E. apply spectrogram_raises in E.
      destruct E as [x E]. exact (Hsp x _ E).
    + rewrite extract_nothing in E. apply nothing_raises in E.
      discriminate E.
  - intros H. now rewrite extract_other.
Qed.

Lemma power_map_no_exception (x : list Q) (msg : string) :
  power_map x <> Raise (Exception msg).
Proof. discriminate. Qed.

Lemma extract_dispatch_witness :
  extract rfft_abs_small power_map int64_subtract "fft" [("chunk_size", 2%Z)]%string
  = call_simple_fourier rfft_abs_small [("chunk_size", 2%Z)]%string /\
  extract rfft_abs_small power_map int64_subtract "spectrogram" [("chunk_size", 2%Z)]%string
  = spectrogram power_map /\
  extract rfft_abs_small power_map int64_subtract "nothing" [("chunk_size", 2%Z)]%string
  = nothing int64_subtract /\
  forall method a,
    snd (extract rfft_abs_small power_map int64_subtract method
           [("chunk_size", 2%Z)]%string a)
    = Raise invalid_method <-> ~ In method methods.
Proof.
  apply (extract_dispatch rfft_abs_small power_map int64_subtract).
  exact power_map_no_exception.
Defined.

(** C3 (as stated) fails: "frequency" and "identity" are not names
    [extract] knows; with either the call ends in the unsupported-method
    exception. *)
Lemma extract_rejects_frequency_and_identity :
  extract rfft_abs_small power_map int64_subtract "frequency" [] (array [[1; 2; 3]]%Q)
  = (array [[1; 2; 3]]%Q, Raise invalid_method) /\
  extract rfft_abs_small power_map int64_subtract "identity" [] (array [[1; 2; 3]]%Q)
  = (array [[1; 2; 3]]%Q, Raise invalid_method).
Proof. split; reflexivity. Qed.

(** C9.  For every method name that is not one of those [extract] knows,
    the call raises the unsupported-method exception: there is no result
    and no transform is run in its place (the argument is untouched). *)
Theorem extract_unsupported
  (rfft_abs : nat -> list Q -> list Q)
  (signal_spectrogram : list Q -> result ndarray)
  (subtract : Q -> Q -> Q)
  (method : string) (kw : kwargs) (a : ndarray) :
  ~ In method methods ->
  extract rfft_abs signal_spectrogram subtract method kw a = (a, Raise invalid_method).
Proof.
  intros H. now rewrite extract_other.
Qed.

Lemma bogus_not_a_method : ~ In "bogus"%string methods.
Proof.
  unfold methods. simpl. intros [H|[H|[H|[]]]]; discriminate H.
Qed.

Lemma extract_unsupported_witness :
  extract rfft_abs_small power_map int64_subtract "bogus"
    [("chunk_size", 64%Z); ("fft_size", 128%Z)]%string (array [[1; 2; 3]]%Q)
  = (array [[1; 2; 3]]%Q, Raise invalid_method).
Proof.
  apply (extract_unsupported rfft_abs_small power_map int64_subtract
           "bogus").
  exact bogus_not_a_method.
Defined.

(** ** What a call does to its argument *)

Section Argument.

Variable rfft_abs : nat -> list Q -> list Q.
Variable signal_spectrogram : list Q -> result ndarray.

Lemma simple_fourier_argument (c f : Z) (a : ndarray) :
  fst (simple_fourier rfft_abs c f a) = a.
Proof.
  destruct (simple_fourier rfft_abs c f a) as [a' r] eqn:H.
  unfold simple_fourier in H. run_in H; simpl; congruence.
Qed.

Lemma call_simple_fourier_argument (kw : kwargs) (a : ndarray) :
  fst (call_simple_fourier rfft_abs kw a) = a.
Proof.
  unfold call_simple_fourier. destruct (forallb _ kw); [|reflexivity].
  apply simple_fourier_argument.
Qed.

Lemma spectrogram_argument (a : ndarray) :
  fst (spectrogram signal_spectrogram a) = a.
Proof.
  destruct (spectrogram signal_spectrogram a) as [a' r] eqn:H.
  unfold spectrogram in H. run_in H; simpl; congruence.
Qed.

End Argument.

(** C8 (the code departs from the claim).  [extract] with "nothing"
    changes the array it is given: called on the batch ((1, 2)) it leaves
    ((0, 1)) in its place, where the claim has the input hold the same
    values after the call as before.  The two other transforms leave their
    input alone: they rebind the local name, the identity transform
    subtracts in place. *)
Theorem nothing_overwrites_argument :
  fst (extract rfft_abs_small power_map int64_subtract "nothing" []
         (array [[1; 2]]%Q))
  = array [[0; 1]]%Q /\
  ~ same_values
      (fst (extract rfft_abs_small power_map int64_subtract "nothing" []
              (array [[1; 2]]%Q)))
      (array [[1; 2]]%Q) /\
  fst (extract rfft_abs_small power_map int64_subtract "fft" []
         (array [[1; 2]]%Q))
  = array [[1; 2]]%Q /\
  fst (extract rfft_abs_small power_map int64_subtract "spectrogram" []
         (array [[1; 2]]%Q))
  = array [[1; 2]]%Q.
Proof.
  split; [vm_compute; reflexivity|]. split.
  - intros [_ H]. vm_compute in H. inversion H as [|x y l l' Hxy _].
    discriminate Hxy.
  - split; vm_compute; reflexivity.
Qed.

(** ** The filter list of the network builder *)

Import ConvModel.

Lemma split_comma_nonempty (s : string) : split_comma s <> [].
Proof.
  induction s as [|c s IH]; simpl; [discriminate|].
  destruct (Ascii.eqb c ","); [discriminate|].
  destruct (split_comma s); discriminate.
Qed.

Lemma ints_length (l : list string) (ns : list Z) :
  ints l = Ok ns -> length ns = length l.
Proof.
  revert ns; induction l as [|f l IH]; intros ns; simpl.
  - now intros [= <-].
  - destruct (py_int f); simpl; [|discriminate].
    destruct (ints l) as [ns'|]; simpl; [|discriminate].
    intros [= <-]. simpl. now rewrite (IH ns').
Qed.

Lemma last_item_nonempty (l : list Z) :
  l <> [] -> exists x, last_item l = Ok x.
Proof.
  intros H. unfold last_item. destruct (rev l) as [|x r] eqn:E.
  - apply (f_equal (@rev Z)) in E. rewrite rev_involutive in E. now subst.
  - eauto.
Qed.

(** Whenever the parsed list is shorter than [num_blocks], the attempt to
    extend it raises: the value handed to [extend] is the product of two
    integers. *)
Lemma filter_list_short (num_filters : string) (num_blocks : Z)
  (parsed : list Z) :
  ints (split_comma num_filters) = Ok parsed ->
  (Z.of_nat (length parsed) < num_blocks)%Z ->
  filter_list num_filters num_blocks = Raise TypeError.
Proof.
  intros E Hlt. unfold filter_list. rewrite E. simpl.
  destruct (Z.ltb_spec (Z.of_nat (length parsed)) num_blocks) as [_|H];
    [|lia].
  destruct (last_item_nonempty parsed) as [x ->]; [|reflexivity].
  intros ->. apply ints_length in E. simpl in E.
  pose proof (split_comma_nonempty num_filters) as Hne.
  destruct (split_comma num_filters); [congruence | discriminate E].
Qed.

Lemma filter_list_long (num_filters : string) (num_blocks : Z)
  (parsed : list Z) :
  ints (split_comma num_filters) = Ok parsed ->
  (num_blocks <= Z.of_nat (length parsed))%Z ->
  filter_list num_filters num_blocks = Ok parsed.
Proof.
  intros E Hle. unfold filter_list. rewrite E. simpl.
  destruct (Z.ltb_spec (Z.of_nat (length parsed)) num_blocks) as [H|_];
    [lia | reflexivity].
Qed.

(** C10 (the code departs from the claim).  With the filter list "32" and
    3 blocks the claim has the list become (32, 32, 32); the builder raises
    a TypeError instead, as it hands [extend] the integer 32 * 2.  A list
    that is long enough is returned as parsed. *)
Theorem filter_list_extension_raises :
  filter_list "32" 3 = Raise TypeError /\
  py_mul (PyInt 32) (PyInt (3 - 1)) = Ok (PyInt 64) /\
  filter_list "32,64,64" 3 = Ok [32; 64; 64]%Z.
Proof. repeat split. Qed.

(** ** Splitting at commas (columns and filter list) *)

Lemma join_comma_cons (w : string) (l : list string) :
  l <> [] -> join_comma (w :: l) = (w ++ "," ++ join_comma l)%string.
Proof. destruct l; [congruence | reflexivity]. Qed.

Lemma split_comma_pieces (s : string) :
  Forall (fun w => ~ In ","%char (list_ascii_of_string w)) (split_comma s).
Proof.
  induction s as [|c s IH]; simpl.
  - constructor; [simpl; tauto | constructor].
  - destruct (Ascii.eqb_spec c ",") as [->|Hc].
    + constructor; [simpl; tauto | exact IH].
    + destruct (split_comma s) as [|w ws].
      * constructor; [|constructor]. simpl. intros [H|[]]. congruence.
      * inversion IH as [|? ? Hw Hws]; subst. constructor; [|exact Hws].
        simpl. intros [H|H]; [congruence | tauto].
Qed.

Lemma join_split_comma (s : string) : join_comma (split_comma s) = s.
Proof.
  induction s as [|c s IH]; simpl; [reflexivity|].
  pose proof (split_comma_nonempty s) as Hne.
  destruct (Ascii.eqb_spec c ",") as [->|Hc].
  - rewrite join_comma_cons by assumption. simpl. now rewrite IH.
  - destruct (split_comma s) as [|w ws]; [congruence|].
    destruct ws as [|w' ws].
    + simpl in *. now rewrite IH.
    + rewrite join_comma_cons by discriminate.
      rewrite join_comma_cons in IH by discriminate.
      simpl. now rewrite <- IH.
Qed.

(** X1.  [s.split(',')] loses nothing and cuts at every comma: joining the
    pieces with commas gives [s] back, there is at least one piece, and no
    piece holds a comma. *)
Theorem split_comma_join (s : string) :
  join_comma (split_comma s) = s /\
  split_comma s <> [] /\
  Forall (fun w => ~ In ","%char (list_ascii_of_string w)) (split_comma s).
Proof.
  split; [apply join_split_comma|].
  split; [apply split_comma_nonempty | apply split_comma_pieces].
Qed.

(** X2.  The column list: only the empty string selects all columns; any
    other string gives the list of its pieces, which joined by commas are
    the string again (nothing is trimmed or dropped, not even an empty
    name). *)
Theorem parse_columns_all_or_pieces (columns : string) :
  (Walker.parse_columns columns = None <-> columns = EmptyString) /\
  (forall l, Walker.parse_columns columns = Some l ->
             l = split_comma columns /\ join_comma l = columns /\
             columns <> EmptyString).
Proof.
  pose proof (join_split_comma columns) as Hj.
  unfold Walker.parse_columns. split.
  - split.
    + destruct (split_comma columns) as [|[|c w] [|w' ws]]; try discriminate.
      intros _. simpl in Hj. now rewrite <- Hj.
    + intros ->. reflexivity.
  - intros l H.
    assert (E : l = split_comma columns).
    { destruct (split_comma columns) as [|[|c w] [|w' ws]];
        try discriminate; now injection H as <-. }
    subst l. split; [reflexivity|]. split; [exact Hj|].
    intros ->. discriminate H.
Qed.

(** ** The longest file (lines 74 to 83) *)

Lemma longest_ge (files : list Walker.csv_file) (m : Z) :
  (m <= Walker.longest m files)%Z /\
  forall f, In f files ->
            (Z.of_nat (Walker.lines f) - 1 <= Walker.longest m files)%Z.
Proof.
  unfold Walker.longest. revert m; induction files as [|g files IH];
    intros m; simpl.
  - split; [lia | contradiction].
  - destruct (IH (Z.max m (Z.of_nat (Walker.lines g) - 1))) as [H1 H2].
    split; [lia|]. intros f [<-|Hf]; [lia | now apply H2].
Qed.

Lemma longest_attained (files : list Walker.csv_file) (m : Z) :
  Walker.longest m files = m \/
  exists f, In f files /\
            Walker.longest m files = (Z.of_nat (Walker.lines f) - 1)%Z.
Proof.
  unfold Walker.longest. revert m; induction files as [|g files IH];
    intros m; simpl; [auto|].
  destruct (IH (Z.max m (Z.of_nat (Walker.lines g) - 1))) as [E|(f & Hf & E)].
  - rewrite E. destruct (Z.max_spec m (Z.of_nat (Walker.lines g) - 1))
      as [[_ ->]|[_ ->]]; eauto.
  - right. exists f. auto.
Qed.

Lemma max_length_concat (dataset : list (list Walker.csv_file)) (m : Z) :
  fold_left Walker.longest dataset m = Walker.longest m (concat dataset).
Proof.
  revert m; induction dataset as [|files dataset IH]; intros m; simpl;
    [reflexivity|].
  rewrite IH. unfold Walker.longest. now rewrite fold_left_app.
Qed.

(** X3.  The first pass of [convert_all_csv]: [max_length] is -1 when the
    project has no csv file; otherwise it is the largest number of lines
    less one (the header) over all files of all labels. *)
Theorem max_length_is_maximum (dataset : list (list Walker.csv_file)) :
  (concat dataset = [] -> Walker.max_length dataset = (-1)%Z) /\
  (forall f, In f (concat dataset) ->
             (Z.of_nat (Walker.lines f) - 1 <= Walker.max_length dataset)%Z) /\
  (concat dataset <> [] ->
   exists f, In f (concat dataset) /\
             Walker.max_length dataset = (Z.of_nat (Walker.lines f) - 1)%Z).
Proof.
  unfold Walker.max_length. rewrite max_length_concat.
  split; [intros ->; reflexivity|]. split.
  - apply longest_ge.
  - intros Hne.
    destruct (longest_attained (concat dataset) (-1)) as [E|H]; [|exact H].
    destruct (concat dataset) as [|f files] eqn:Ec; [congruence|].
    exists f. split; [now left|].
    pose proof (proj2 (longest_ge (f :: files) (-1)) f (or_introl eq_refl)).
    lia.
Qed.

(** ** Padding to the longest file (line 97) *)

Lemma pad_explicit (n t : nat) (a : ndarray) (p : Z) :
  is_batch n t a -> (0 <= p)%Z ->
  pad a p = Ok (of_rows n (t + Z.to_nat p)
                  (map (fun r => r ++ repeat 0%Q (Z.to_nat p)) (rows a))).
Proof.
  intros Ha Hp. unfold pad.
  destruct (Z.ltb_spec p 0) as [Hlt|_]; [lia|].
  now destruct (batch_dims n t a Ha) as [-> ->].
Qed.

Lemma pad_get2 (n t : nat) (a a' : ndarray) (p : Z) (i j : nat) :
  is_batch n t a -> (0 <= p)%Z -> pad a p = Ok a' ->
  i < n -> j < t + Z.to_nat p ->
  get2 a' i j = if j <? t then get2 a i j else 0%Q.
Proof.
  intros Ha Hp E Hi Hj.
  destruct (pad_batch n t a p Ha Hp) as (a'' & E' & Hb).
  rewrite E in E'. injection E' as <-.
  rewrite (batch_get2 _ _ a' Hb) by assumption.
  rewrite (pad_explicit n t a p Ha Hp) in E. injection E as <-.
  pose proof (batch_rows_length n t a Ha) as Hn.
  rewrite of_rows_rows.
  - rewrite (nth_indep _ [] ((fun r => r ++ repeat 0%Q (Z.to_nat p)) []))
      by (rewrite length_map; lia).
    rewrite (map_nth (fun r => r ++ repeat 0%Q (Z.to_nat p))).
    pose proof (batch_row_width n t a Ha i Hi) as Hw.
    destruct (Nat.ltb_spec j t) as [Hlt|Hge].
    + rewrite app_nth1 by lia. symmetry. now apply (batch_get2 n t a Ha).
    + rewrite app_nth2 by lia. apply nth_repeat.
  - rewrite length_map. exact Hn.
  - rewrite Forall_map.
    eapply Forall_impl; [|apply (batch_rows_widths n t a Ha)].
    intros r Hr. simpl in *. rewrite length_app, repeat_length. lia.
Qed.

(** X4.  Padding a batch of [t] timesteps to a length [l >= t] succeeds and
    gives a batch of [l] timesteps: the first [t] columns are the batch,
    the others are 0.  Any length below [t] is refused with a ValueError:
    the padding never cuts a series. *)
Theorem pad_to_length (n t : nat) (a : ndarray) (l : Z) :
  is_batch n t a -> (Z.of_nat t <= l)%Z ->
  (exists a', pad a (l - Z.of_nat t) = Ok a' /\
              is_batch n (Z.to_nat l) a' /\
              forall i j, i < n -> j < Z.to_nat l ->
                get2 a' i j = if j <? t then get2 a i j else 0%Q) /\
  (forall l', (l' < Z.of_nat t)%Z ->
              pad a (l' - Z.of_nat t) = Raise ValueError).
Proof.
  intros Ha Hl. split.
  - destruct (pad_batch n t a (l - Z.of_nat t) Ha ltac:(lia))
      as (a' & E & Hb).
    assert (Hw : t + Z.to_nat (l - Z.of_nat t) = Z.to_nat l) by lia.
    exists a'. split; [exact E|]. split; [now rewrite <- Hw|].
    intros i j Hi Hj.
    apply (pad_get2 n t a a' (l - Z.of_nat t)); try assumption; lia.
  - intros l' Hl'. unfold pad.
    destruct (Z.ltb_spec (l' - Z.of_nat t) 0) as [_|H]; [reflexivity | lia].
Qed.

Lemma pad_to_length_witness :
  (exists a', pad (array [[1; 2; 3]]%Q) (5 - Z.of_nat 3) = Ok a' /\
              is_batch 1 (Z.to_nat 5) a' /\
              forall i j, i < 1 -> j < Z.to_nat 5 ->
                get2 a' i j
                = if j <? 3 then get2 (array [[1; 2; 3]]%Q) i j else 0%Q) /\
  (forall l', (l' < Z.of_nat 3)%Z ->
              pad (array [[1; 2; 3]]%Q) (l' - Z.of_nat 3) = Raise ValueError).
Proof.
  apply (pad_to_length 1 3 (array [[1; 2; 3]]%Q) 5).
  - exact array_is_batch_1_3.
  - lia.
Defined.

(** ** Values of a normalized batch *)

Lemma get3_stack3 (n t : nat) (b : ndarray) (i j k : nat) :
  is_batch n t b -> k < 3 -> get3 (stack3 b) i j k = get2 b i j.
Proof.
  intros [Hs _] Hk. unfold get3, get2, dim, stack3. simpl. rewrite Hs. simpl.
  now apply nth_triple.
Qed.

Lemma normalized_get2_range (n t : nat) (a : ndarray) (i j : nat) :
  is_batch n t a -> Forall (fun x => 0 <= x)%Q (data a) ->
  i < n -> j < t ->
  (0 <= get2 (normalized a) i j /\ get2 (normalized a) i j <= 1)%Q.
Proof.
  intros Ha Hpos Hi Hj. assert (Ht : 0 < t) by lia. unfold normalized.
  rewrite (normalize_rows_get2 n t a i j Ha Hi Hj).
  pose proof (list_max_row_maximum n t a Ha i Hi Ht) as [HM _].
  specialize (HM j Hj).
  assert (Hx0 : (0 <= get2 a i j)%Q).
  { rewrite Forall_forall in Hpos. apply Hpos.
    now apply (get2_In_data n t a Ha). }
  set (M := list_max (nth i (rows a) [])) in *.
  set (x := get2 a i j) in *. clearbody M x.
  destruct (Qeq_bool M 0) eqn:Ez.
  - apply Qeq_bool_iff in Ez.
    assert (Hd : (x / 1 == 0)%Q) by (assert (x == 0)%Q by lra; field_simplify; lra).
    rewrite Hd. split; [apply Qle_refl | discriminate].
  - apply Qeq_bool_neq in Ez. assert (HMpos : (0 < M)%Q) by lra. split.
    + apply Qle_shift_div_l; [exact HMpos | lra].
    + apply Qle_shift_div_r; [exact HMpos | lra].
Qed.

Lemma normalized_batch (n t : nat) (a : ndarray) :
  is_batch n t a -> is_batch n t (normalized a).
Proof.
  intros Ha. apply broadcast_rows_batch; [exact Ha|].
  unfold place_zeros. rewrite !length_map. apply (batch_rows_length n t a Ha).
Qed.

Lemma normalized_range (n t : nat) (a : ndarray) :
  is_batch n t a -> Forall (fun x => 0 <= x)%Q (data a) ->
  Forall (fun x => 0 <= x /\ x <= 1)%Q (data (normalized a)).
Proof.
  intros Ha Hpos.
  apply (batch_Forall n t _ (normalized_batch n t a Ha)).
  intros i j Hi Hj. now apply (normalized_get2_range n t).
Qed.

Lemma triple_Forall (P : Q -> Prop) (l : list Q) :
  Forall P l -> Forall P (flat_map (fun x => [x; x; x]) l).
Proof.
  induction 1 as [|x l Hx _ IH]; simpl; repeat constructor; assumption.
Qed.

(** ** The frequency transform: result, errors, range *)

Lemma abs_rfft_explicit (rfft_abs : nat -> list Q -> list Q) (a : ndarray)
  (f : nat) :
  0 < f ->
  abs_rfft rfft_abs a (Z.of_nat f)
  = Ok (of_rows (dim 0 a) (f / 2 + 1) (map (rfft_abs f) (rows a))).
Proof.
  intros Hf. unfold abs_rfft.
  destruct (Z.ltb_spec (Z.of_nat f) 1) as [Hlt|_]; [lia|].
  now rewrite Nat2Z.id.
Qed.

Section SimpleFourierValue.

Variable rfft_abs : nat -> list Q -> list Q.
Variables n t c f : nat.
Variable a : ndarray.

Hypothesis rfft_abs_length :
  forall r, length (rfft_abs f r) = f / 2 + 1.
Hypothesis Ha : is_batch n t a.
Hypothesis Hn : 0 < n.
Hypothesis Hc : 0 < c.
Hypothesis Hf : 0 < f.

(** The magnitudes of all chunks, one row per stream. *)
Lemma simple_fourier_explicit :
  exists padded magnitudes,
    pad_to_chunk_size (Z.of_nat c) a = Ok padded /\
    is_batch n (c * (t / c + 1)) padded /\
    data magnitudes
    = concat (map (rfft_abs f) (chunks c (n * (t / c + 1)) (data padded))) /\
    is_batch n ((t / c + 1) * (f / 2 + 1)) magnitudes /\
    simple_fourier rfft_abs (Z.of_nat c) (Z.of_nat f) a
    = (a, Ok (stack3 (mk_ndarray [n * (t / c + 1); f / 2 + 1]
                        (data (normalized magnitudes))))).
Proof.
  set (k := t / c + 1). set (b := f / 2 + 1).
  destruct (pad_to_chunk_size_batch n t c a Ha Hc) as (a1 & E1 & H1).
  fold k in H1.
  exists a1,
    (mk_ndarray [n; k * b]
       (concat (map (rfft_abs f) (chunks c (n * k) (data a1))))).
  split; [exact E1|]. split; [exact H1|]. split; [reflexivity|].
  unfold simple_fourier, bind, get_arg, lift, ret. rewrite E1.
  assert (Hq : Z.to_nat (Z.of_nat (product (shape a1)) ÷ Z.of_nat c) = n * k).
  { destruct H1 as [-> _]. simpl.
    rewrite Z.quot_div_nonneg by lia.
    rewrite <- Nat2Z.inj_div, Nat2Z.id.
    replace (n * (c * k * 1)) with (n * k * c) by lia.
    apply Nat.div_mul. lia. }
  rewrite Hq, Nat2Z.id.
  destruct (reshape_batch n (c * k) (n * k) c a1 H1 ltac:(lia)) as [-> H2].
  rewrite (abs_rfft_explicit rfft_abs _ f Hf).
  change (dim 0 (mk_ndarray [n * k; c] (data a1))) with (n * k).
  change (rows (mk_ndarray [n * k; c] (data a1)))
    with (chunks c (n * k) (data a1)).
  assert (H3 : is_batch (n * k) b
                 (of_rows (n * k) b
                    (map (rfft_abs f) (chunks c (n * k) (data a1))))).
  { apply of_rows_batch.
    - rewrite length_map. apply chunks_length.
    - rewrite Forall_map. apply Forall_forall. intros r _.
      apply rfft_abs_length. }
  fold b.
  assert (Hw : product (shape (of_rows (n * k) b
                 (map (rfft_abs f) (chunks c (n * k) (data a1)))))
               / dim 0 a = k * b).
  { destruct (batch_dims n t a Ha) as [-> _]. simpl.
    replace (n * k * (b * 1)) with (k * b * n) by lia.
    apply Nat.div_mul. lia. }
  rewrite Hw. destruct (batch_dims n t a Ha) as [-> _].
  destruct (reshape_batch (n * k) b n (k * b) _ H3 ltac:(lia)) as [-> H4].
  simpl data in *.
  split; [exact H4|].
  assert (Hkb : 0 < k * b) by (unfold k, b; lia).
  destruct (normalize_rows_batch n (k * b) _ H4 Hkb) as [-> H5].
  change (shape (of_rows (n * k) b
            (map (rfft_abs f) (chunks c (n * k) (data a1)))))
    with [n * k; b].
  destruct (reshape_batch n (k * b) (n * k) b _ H5 ltac:(lia)) as [-> H6].
  reflexivity.
Qed.

End SimpleFourierValue.

(** X5.  On a batch of [n >= 1] streams and any number [t] of timesteps,
    with positive chunk size [c] and FFT size [f], the frequency transform
    returns, leaves its argument as it was, and its result has the shape
    [(n * (t / c + 1), f / 2 + 1, 3)] with that many elements: there are
    [t / c + 1] chunks per stream, also when [t] is a multiple of [c]. *)
Theorem simple_fourier_returns (rfft_abs : nat -> list Q -> list Q)
  (n t c f : nat) (a : ndarray) :
  (forall r, length (rfft_abs f r) = f / 2 + 1) ->
  is_batch n t a -> 0 < n -> 0 < c -> 0 < f ->
  exists out,
    simple_fourier rfft_abs (Z.of_nat c) (Z.of_nat f) a = (a, Ok out) /\
    shape out = [n * (t / c + 1); f / 2 + 1; 3] /\
    well_formed out.
Proof.
  intros Hr Ha Hn Hc Hf.
  destruct (simple_fourier_explicit rfft_abs n t c f a Hr Ha Hn Hc Hf)
    as (padded & mags & _ & _ & _ & Hm & E).
  eexists. split; [exact E|]. split; [reflexivity|].
  apply stack3_well_formed. unfold well_formed, product.
  cbn [shape data fold_right].
  rewrite (batch_length _ _ _ (normalized_batch _ _ _ Hm)).
  rewrite Nat.mul_1_r. apply Nat.mul_assoc.
Qed.

Lemma array_is_batch_1_4 : is_batch 1 4 (array [[1; 2; 3; 4]]%Q).
Proof. split; reflexivity. Qed.

Lemma simple_fourier_returns_witness :
  exists out,
    simple_fourier rfft_abs_small (Z.of_nat 2) (Z.of_nat 2)
      (array [[1; 2; 3; 4]]%Q)
    = (array [[1; 2; 3; 4]]%Q, Ok out) /\
    shape out = [1 * (4 / 2 + 1); 2 / 2 + 1; 3] /\
    well_formed out.
Proof.
  apply (simple_fourier_returns rfft_abs_small 1 4 2 2).
  - exact rfft_abs_small_length.
  - exact array_is_batch_1_4.
  - lia.
  - lia.
  - lia.
Defined.

(** X6.  With magnitudes that are not negative (as absolute values are),
    every value the frequency transform returns lies in [0, 1]. *)
Theorem simple_fourier_unit_interval (rfft_abs : nat -> list Q -> list Q)
  (n t c f : nat) (a : ndarray) :
  (forall r, length (rfft_abs f r) = f / 2 + 1) ->
  (forall r, Forall (fun x => 0 <= x)%Q (rfft_abs f r)) ->
  is_batch n t a -> 0 < n -> 0 < c -> 0 < f ->
  exists out,
    snd (simple_fourier rfft_abs (Z.of_nat c) (Z.of_nat f) a) = Ok out /\
    Forall (fun x => 0 <= x /\ x <= 1)%Q (data out).
Proof.
  intros Hr Hpos Ha Hn Hc Hf.
  destruct (simple_fourier_explicit rfft_abs n t c f a Hr Ha Hn Hc Hf)
    as (padded & mags & _ & _ & Hd & Hm & E).
  eexists. rewrite E. split; [reflexivity|]. simpl.
  apply triple_Forall. apply (normalized_range _ _ _ Hm).
  rewrite Hd. apply Forall_concat. rewrite Forall_map.
  apply Forall_forall. intros r _. apply Hpos.
Qed.

Lemma rfft_abs_small_nonnegative (r : list Q) :
  Forall (fun x => 0 <= x)%Q (rfft_abs_small 2 r).
Proof. repeat constructor; apply Qabs_nonneg. Qed.

Lemma simple_fourier_unit_interval_witness :
  exists out,
    snd (simple_fourier rfft_abs_small (Z.of_nat 2) (Z.of_nat 2)
           (array [[1; 2; 3; 4]]%Q)) = Ok out /\
    Forall (fun x => 0 <= x /\ x <= 1)%Q (data out).
Proof.
  apply (simple_fourier_unit_interval rfft_abs_small 1 4 2 2).
  - exact rfft_abs_small_length.
  - exact rfft_abs_small_nonnegative.
  - exact array_is_batch_1_4.
  - lia.
  - lia.
  - lia.
Defined.

Lemma simple_fourier_bad_fft_size (rfft_abs : nat -> list Q -> list Q)
  (n t c : nat) (a : ndarray) (fft_size : Z) :
  is_batch n t a -> 0 < n -> 0 < c -> (fft_size < 1)%Z ->
  simple_fourier rfft_abs (Z.of_nat c) fft_size a = (a, Raise ValueError).
Proof.
  intros Ha Hn Hc Hf.
  destruct (pad_to_chunk_size_batch n t c a Ha Hc) as (a1 & E1 & H1).
  unfold simple_fourier, bind, get_arg, lift, ret. rewrite E1.
  set (k := t / c + 1) in *.
  assert (Hq : Z.to_nat (Z.of_nat (product (shape a1)) ÷ Z.of_nat c) = n * k).
  { destruct H1 as [-> _]. simpl.
    rewrite Z.quot_div_nonneg by lia.
    rewrite <- Nat2Z.inj_div, Nat2Z.id.
    replace (n * (c * k * 1)) with (n * k * c) by lia.
    apply Nat.div_mul. lia. }
  rewrite Hq, Nat2Z.id.
  destruct (reshape_batch n (c * k) (n * k) c a1 H1 ltac:(lia)) as [-> _].
  unfold abs_rfft.
  destruct (Z.ltb_spec fft_size 1) as [_|H]; [reflexivity | lia].
Qed.

(** X7.  What the frequency transform refuses, on any batch with at least
    one stream: a chunk size of 0 is a ZeroDivisionError (from [%]), a
    negative chunk size a ValueError (a negative pad width), and with a
    positive chunk size an FFT size below 1 a ValueError; in each case the
    argument is left as it was. *)
Theorem simple_fourier_refuses (rfft_abs : nat -> list Q -> list Q)
  (n t : nat) (a : ndarray) (chunk_size fft_size : Z) :
  is_batch n t a -> 0 < n ->
  (chunk_size <= 0)%Z \/ (fft_size < 1)%Z ->
  simple_fourier rfft_abs chunk_size fft_size a
  = (a, Raise (if (chunk_size =? 0)%Z then ZeroDivisionError
               else ValueError)).
Proof.
  intros Ha Hn H.
  destruct (Z.eqb_spec chunk_size 0) as [->|Hne]; [reflexivity|].
  destruct (Z.ltb_spec chunk_size 0) as [Hc|Hc].
  - unfold simple_fourier, bind, get_arg, lift, ret.
    unfold pad_to_chunk_size, py_mod, pad.
    destruct (Z.eqb_spec chunk_size 0) as [E|_]; [lia|]. simpl.
    pose proof (Z.mod_neg_bound (Z.of_nat (dim 1 a)) chunk_size Hc) as Hb.
    destruct (Z.ltb_spec (chunk_size - Z.of_nat (dim 1 a) mod chunk_size) 0)
      as [_|H']; [reflexivity | lia].
  - rewrite <- (Z2Nat.id chunk_size) by lia.
    apply (simple_fourier_bad_fft_size rfft_abs n t); (assumption || lia).
Qed.

Lemma simple_fourier_refuses_witness :
  simple_fourier rfft_abs_small 64 0 (array [[1; 2; 3]]%Q)
  = (array [[1; 2; 3]]%Q,
     Raise (if (64 =? 0)%Z then ZeroDivisionError else ValueError)).
Proof.
  apply (simple_fourier_refuses rfft_abs_small 1 3).
  - exact array_is_batch_1_3.
  - lia.
  - right. lia.
Defined.

(** ** The identity transform: values *)

Section NothingValue.

Variable subtract : Q -> Q -> Q.
Variables (n t : nat) (a : ndarray).
Hypothesis Ha : is_batch n t a.
Hypothesis Hex : exact_on subtract a.

Lemma shifted_get2 (i j : nat) (m : Q) :
  i < n -> j < t -> row_minimum t a i m ->
  (get2 (shifted subtract a) i j == get2 a i j - m)%Q.
Proof.
  intros Hi Hj Hm. assert (Ht : 0 < t) by lia.
  rewrite (sub_min_get2 n t a Ha subtract i j Hex Hi Hj).
  rewrite (row_minimum_unique t a i _ m
             (list_min_row_minimum n t a Ha i Hi Ht) Hm).
  reflexivity.
Qed.

Lemma shifted_maximum (i : nat) (m M : Q) :
  i < n -> row_minimum t a i m -> row_maximum t a i M ->
  row_maximum t (shifted subtract a) i (M - m)%Q.
Proof.
  intros Hi Hm [Hub (j & Hj & E)]. split.
  - intros j' Hj'. rewrite (shifted_get2 i j' m) by assumption.
    pose proof (Hub j' Hj'). lra.
  - exists j. split; [exact Hj|].
    rewrite (shifted_get2 i j m) by assumption. now rewrite E.
Qed.

Lemma shifted_minimum (i : nat) (m : Q) :
  i < n -> row_minimum t a i m -> row_minimum t (shifted subtract a) i 0%Q.
Proof.
  intros Hi [Hlb (j & Hj & E)]. split.
  - intros j' Hj'.
    apply (shifted_nonnegative subtract n t); try assumption.
    now apply exact_on_sign.
  - exists j. split; [exact Hj|].
    rewrite (shifted_get2 i j m) by (try assumption; split; eauto).
    rewrite E. ring.
Qed.

(** Min-max scaling, with the quotient taken exactly. *)
Lemma normalized_shifted_get2 (i j : nat) (m M : Q) :
  i < n -> j < t -> row_minimum t a i m -> row_maximum t a i M ->
  (get2 (normalized (shifted subtract a)) i j
   == if Qeq_bool (M - m) 0 then 0 else (get2 a i j - m) / (M - m))%Q.
Proof.
  intros Hi Hj Hm HM. assert (Ht : 0 < t) by lia.
  pose proof (shifted_batch subtract n t a Ha) as Hs. unfold normalized.
  rewrite (normalize_rows_get2 n t _ i j Hs Hi Hj).
  pose proof (row_maximum_unique t _ i _ _
                (list_max_row_maximum n t _ Hs i Hi Ht)
                (shifted_maximum i m M Hi Hm HM)) as EM.
  pose proof (shifted_get2 i j m Hi Hj Hm) as Ex.
  pose proof (proj1 Hm j Hj) as Hlo. pose proof (proj1 HM j Hj) as Hhi.
  set (M' := list_max (nth i (rows (shifted subtract a)) [])) in *.
  set (x' := get2 (shifted subtract a) i j) in *.
  set (x := get2 a i j) in *. clearbody M' x' x.
  destruct (Qeq_bool M' 0) eqn:E1, (Qeq_bool (M - m) 0) eqn:E2.
  - apply Qeq_bool_iff in E2. rewrite Ex.
    assert (x - m == 0)%Q by lra. field_simplify. lra.
  - apply Qeq_bool_iff in E1. apply Qeq_bool_neq in E2.
    exfalso. apply E2. now rewrite <- EM.
  - apply Qeq_bool_iff in E2. apply Qeq_bool_neq in E1.
    exfalso. apply E1. now rewrite EM.
  - now rewrite Ex, EM.
Qed.

End NothingValue.

(** X8.  Where the in-place subtraction is exact within each row, the
    identity transform sends the minimum of every row to 0 and, in a row
    that is not constant, the maximum to 1; a constant row comes out all
    0.  This holds in every plane of the result. *)
Theorem nothing_endpoints (subtract : Q -> Q -> Q) (n t : nat) (a : ndarray)
  (i j k : nat) (m M : Q) :
  is_batch n t a -> exact_on subtract a ->
  i < n -> j < t -> k < 3 ->
  row_minimum t a i m -> row_maximum t a i M ->
  exists out,
    snd (nothing subtract a) = Ok out /\
    ((get2 a i j == m)%Q -> (get3 out i j k == 0)%Q) /\
    ((get2 a i j == M)%Q -> ~ (M == m)%Q -> (get3 out i j k == 1)%Q) /\
    ((M == m)%Q -> (get3 out i j k == 0)%Q).
Proof.
  intros Ha Hex Hi Hj Hk Hm HM. assert (Ht : 0 < t) by lia.
  rewrite (nothing_run subtract n t a Ha Ht).
  eexists. split; [reflexivity|].
  rewrite (get3_stack3 n t) by
    (try assumption; apply normalized_batch, shifted_batch; exact Ha).
  pose proof (normalized_shifted_get2 subtract n t a Ha Hex i j m M
                Hi Hj Hm HM) as E.
  set (x := get2 a i j) in *. clearbody x.
  destruct (Qeq_bool (M - m) 0) eqn:Ez.
  - apply Qeq_bool_iff in Ez. split; [intros _; exact E|]. split.
    + intros _ Hne. exfalso. apply Hne. lra.
    + intros _. exact E.
  - apply Qeq_bool_neq in Ez. rewrite E. split; [|split].
    + intros Hx. rewrite Hx. field. exact Ez.
    + intros Hx _. rewrite Hx. field. exact Ez.
    + intros He. exfalso. apply Ez. lra.
Qed.

Lemma minimum_of_example : row_minimum 2 (array [[-1; 3]; [5; 5]]%Q) 0 (-1).
Proof.
  split.
  - intros [|[|j]] Hj; [discriminate | discriminate | lia].
  - exists 0. split; [lia | reflexivity].
Qed.

Lemma maximum_of_example : row_maximum 2 (array [[-1; 3]; [5; 5]]%Q) 0 3.
Proof.
  split.
  - intros [|[|j]] Hj; [discriminate | apply Qle_refl | lia].
  - exists 1. split; [lia | reflexivity].
Qed.

Lemma nothing_endpoints_witness :
  exists out,
    snd (nothing int64_subtract (array [[-1; 3]; [5; 5]]%Q)) = Ok out /\
    ((get2 (array [[-1; 3]; [5; 5]]%Q) 0 1 == -1)%Q ->
     (get3 out 0 1 2 == 0)%Q) /\
    ((get2 (array [[-1; 3]; [5; 5]]%Q) 0 1 == 3)%Q -> ~ (3 == -1)%Q ->
     (get3 out 0 1 2 == 1)%Q) /\
    ((3 == -1)%Q -> (get3 out 0 1 2 == 0)%Q).
Proof.
  apply (nothing_endpoints int64_subtract 2 2).
  - exact array_is_batch_2_2.
  - exact int64_exact_on_example.
  - lia.
  - lia.
  - lia.
  - exact minimum_of_example.
  - exact maximum_of_example.
Defined.




Lemma shifted_shifted (subtract : Q -> Q -> Q) (n t : nat) (a : ndarray)
  (i j : nat) :
  is_batch n t a -> exact_on subtract a ->
  exact_on subtract (shifted subtract a) ->
  i < n -> j < t ->
  (get2 (shifted subtract (shifted subtract a)) i j
   == get2 (shifted subtract a) i j)%Q.
Proof.
  intros Ha Hex Hex' Hi Hj. assert (Ht : 0 < t) by lia.
  pose proof (shifted_batch subtract n t a Ha) as Hs.
  rewrite (shifted_get2 subtract n t _ Hs Hex' i j 0 Hi Hj).
  - ring.
  - apply (shifted_minimum subtract n t a Ha Hex i _ Hi
             (list_min_row_minimum n t a Ha i Hi Ht)).
Qed.

(** X10.  Where the in-place subtraction is exact within each row, on the
    batch and on what the call leaves of it, a second call of the identity
    transform on the array the first call left behind changes nothing
    more: the array keeps its values and the result has the values of the
    first result. *)
Theorem nothing_twice (subtract : Q -> Q -> Q) (n t : nat) (a : ndarray) :
  is_batch n t a -> 0 < t ->
  exact_on subtract a -> exact_on subtract (shifted subtract a) ->
  exists a1 out1 a2 out2,
    nothing subtract a = (a1, Ok out1) /\
    nothing subtract a1 = (a2, Ok out2) /\
    same_values a2 a1 /\ same_values out2 out1.
Proof.
  intros Ha Ht Hex Hex'.
  pose proof (shifted_batch subtract n t a Ha) as H1.
  pose proof (shifted_batch subtract n t _ H1) as H2.
  exists (shifted subtract a), (stack3 (normalized (shifted subtract a))),
         (shifted subtract (shifted subtract a)),
         (stack3 (normalized (shifted subtract (shifted subtract a)))).
  split; [apply (nothing_run subtract n t a Ha Ht)|].
  split; [apply (nothing_run subtract n t _ H1 Ht)|].
  assert (Hv : forall i j, i < n -> j < t ->
                 (get2 (shifted subtract (shifted subtract a)) i j
                  == get2 (shifted subtract a) i j)%Q)
    by (intros; now apply (shifted_shifted subtract n t)).
  split.
  - now apply (batch_same_values n t).
  - apply stack3_same_values. apply (batch_same_values n t).
    + now apply normalized_batch.
    + now apply normalized_batch.
    + intros i j Hi Hj. now apply (normalized_ext n t).
Qed.

Lemma int64_exact_on_example_shifted :
  exact_on int64_subtract
    (shifted int64_subtract (array [[-1; 3]; [5; 5]]%Q)).
Proof. check_exact_on. Qed.

Lemma nothing_twice_witness :
  exists a1 out1 a2 out2,
    nothing int64_subtract (array [[-1; 3]; [5; 5]]%Q) = (a1, Ok out1) /\
    nothing int64_subtract a1 = (a2, Ok out2) /\
    same_values a2 a1 /\ same_values out2 out1.
Proof.
  apply (nothing_twice int64_subtract 2 2).
  - exact array_is_batch_2_2.
  - lia.
  - exact int64_exact_on_example.
  - exact int64_exact_on_example_shifted.
Defined.

(** ** One file of the dataset (lines 74 to 106) *)

Lemma max_length_ge (dataset : list (list Walker.csv_file))
  (file : Walker.csv_file) :
  In file (concat dataset) ->
  (Z.of_nat (Walker.lines file) - 1 <= Walker.max_length dataset)%Z.
Proof.
  unfold Walker.max_length. rewrite max_length_concat. apply longest_ge.
Qed.

Lemma pixels_are_bytes (l : list Q) :
  Forall (fun b => 0 <= b <= 255)%Z (map pixel l).
Proof.
  rewrite Forall_map. apply Forall_forall. intros x _.
  unfold pixel, astype_uint8.
  pose proof (Z.mod_pos_bound (truncate (float64_multiply x 255)) 256
                ltac:(lia)).
  lia.
Qed.

(** X13.  In a run with the method "nothing", every csv file of the project
    that has at least one data row is padded without error to the length
    of the longest file, and its image has the shape
    [(n, max_length, 3)]: the images of one run are all equally wide.  The
    image holds [n * max_length * 3] bytes. *)
Theorem convert_one_nothing_in_dataset
  (rfft_abs : nat -> list Q -> list Q)
  (signal_spectrogram : list Q -> result ndarray)
  (subtract : Q -> Q -> Q)
  (dataset : list (list Walker.csv_file)) (file : Walker.csv_file)
  (n : nat) (chunk_size fft_size : Z) :
  In file (concat dataset) ->
  1 < Walker.lines file ->
  is_batch n (Walker.lines file - 1) (Walker.table file) ->
  exists bytes,
    convert_one rfft_abs signal_spectrogram subtract (Walker.max_length dataset)
      "nothing" chunk_size fft_size (Walker.table file)
    = Ok ([n; Z.to_nat (Walker.max_length dataset); 3], bytes) /\
    length bytes = n * Z.to_nat (Walker.max_length dataset) * 3 /\
    Forall (fun b => 0 <= b <= 255)%Z bytes.
Proof.
  intros Hin Hl Ha. pose proof (max_length_ge dataset file Hin) as Hm.
  set (l := Walker.max_length dataset) in *.
  set (t := Walker.lines file - 1) in *.
  unfold convert_one. destruct (batch_dims n t _ Ha) as [_ ->].
  destruct (pad_batch n t _ (l - Z.of_nat t) Ha ltac:(lia))
    as (padded & -> & Hp).
  replace (t + Z.to_nat (l - Z.of_nat t)) with (Z.to_nat l) in Hp by lia.
  cbn [rbind]. rewrite extract_nothing.
  rewrite (nothing_run subtract n (Z.to_nat l) padded Hp ltac:(lia)). cbn [snd rbind].
  pose proof (normalized_batch _ _ _ (shifted_batch subtract _ _ _ Hp)) as Hb.
  exists (map pixel (data (stack3 (normalized (shifted subtract padded))))).
  split; [|split].
  - unfold stack3 at 1. cbn [shape]. destruct Hb as [-> _]. reflexivity.
  - unfold stack3. cbn [data].
    rewrite length_map, length_triple, (batch_length _ _ _ Hb). reflexivity.
  - apply pixels_are_bytes.
Qed.

Lemma file_in_dataset :
  In (Walker.mk_csv_file 3 (array [[4; 6]]%Q))
    (concat [[Walker.mk_csv_file 3 (array [[4; 6]]%Q)];
             [Walker.mk_csv_file 5 (array [[1; 2; 3; 4]]%Q)]]).
Proof. simpl. auto. Qed.

Lemma array_is_batch_1_2 : is_batch 1 (3 - 1) (array [[4; 6]]%Q).
Proof. split; reflexivity. Qed.

Lemma convert_one_nothing_in_dataset_witness :
  exists bytes,
    convert_one rfft_abs_small power_map int64_subtract
      (Walker.max_length
         [[Walker.mk_csv_file 3 (array [[4; 6]]%Q)];
          [Walker.mk_csv_file 5 (array [[1; 2; 3; 4]]%Q)]])
      "nothing" 64 128 (array [[4; 6]]%Q)
    = Ok ([1;
           Z.to_nat
             (Walker.max_length
                [[Walker.mk_csv_file 3 (array [[4; 6]]%Q)];
                 [Walker.mk_csv_file 5 (array [[1; 2; 3; 4]]%Q)]]);
           3], bytes) /\
    length bytes
    = 1 * Z.to_nat
            (Walker.max_length
               [[Walker.mk_csv_file 3 (array [[4; 6]]%Q)];
                [Walker.mk_csv_file 5 (array [[1; 2; 3; 4]]%Q)]]) * 3 /\
    Forall (fun b => 0 <= b <= 255)%Z bytes.
Proof.
  apply (convert_one_nothing_in_dataset rfft_abs_small power_map
           int64_subtract
           [[Walker.mk_csv_file 3 (array [[4; 6]]%Q)];
            [Walker.mk_csv_file 5 (array [[1; 2; 3; 4]]%Q)]]
           (Walker.mk_csv_file 3 (array [[4; 6]]%Q)) 1 64 128).
  - exact file_in_dataset.
  - simpl. lia.
  - exact array_is_batch_1_2.
Defined.

(** X14.  In a run with the method "fft" and positive chunk and FFT sizes,
    every csv file of the project with at least one column is padded to
    the length [l] of the longest file and its image has the shape
    [(n * (l / c + 1), f / 2 + 1, 3)], the same for all files with [n]
    columns. *)
Theorem convert_one_fft_in_dataset
  (rfft_abs : nat -> list Q -> list Q)
  (signal_spectrogram : list Q -> result ndarray)
  (subtract : Q -> Q -> Q)
  (dataset : list (list Walker.csv_file)) (file : Walker.csv_file)
  (n c f : nat) :
  (forall r, length (rfft_abs f r) = f / 2 + 1) ->
  In file (concat dataset) ->
  0 < Walker.lines file ->
  is_batch n (Walker.lines file - 1) (Walker.table file) ->
  0 < n -> 0 < c -> 0 < f ->
  exists bytes,
    convert_one rfft_abs signal_spectrogram subtract (Walker.max_length dataset)
      "fft" (Z.of_nat c) (Z.of_nat f) (Walker.table file)
    = Ok ([n * (Z.to_nat (Walker.max_length dataset) / c + 1); f / 2 + 1; 3],
          bytes) /\
    length bytes
    = n * (Z.to_nat (Walker.max_length dataset) / c + 1) * (f / 2 + 1) * 3.
Proof.
  intros Hr Hin Hl Ha Hn Hc Hf.
  pose proof (max_length_ge dataset file Hin) as Hm.
  set (l := Walker.max_length dataset) in *.
  set (t := Walker.lines file - 1) in *.
  unfold convert_one. destruct (batch_dims n t _ Ha) as [_ ->].
  destruct (pad_batch n t _ (l - Z.of_nat t) Ha ltac:(lia))
    as (padded & -> & Hp).
  replace (t + Z.to_nat (l - Z.of_nat t)) with (Z.to_nat l) in Hp by lia.
  cbn [rbind]. rewrite extract_fft.
  change (call_simple_fourier rfft_abs
            [("chunk_size"%string, Z.of_nat c);
             ("fft_size"%string, Z.of_nat f)])
    with (simple_fourier rfft_abs (Z.of_nat c) (Z.of_nat f)).
  destruct (simple_fourier_run rfft_abs n (Z.to_nat l) c f padded
              Hr Hp Hn Hc Hf) as (out & -> & Hs & Hw).
  cbn [snd rbind]. exists (map pixel (data out)).
  split; [now rewrite Hs|].
  rewrite length_map. unfold well_formed in Hw. rewrite Hw, Hs.
  unfold product. cbn [fold_right]. lia.
Qed.

Lemma convert_one_fft_in_dataset_witness :
  exists bytes,
    convert_one rfft_abs_small power_map int64_subtract
      (Walker.max_length
         [[Walker.mk_csv_file 3 (array [[4; 6]]%Q)];
          [Walker.mk_csv_file 5 (array [[1; 2; 3; 4]]%Q)]])
      "fft" (Z.of_nat 2) (Z.of_nat 2) (array [[4; 6]]%Q)
    = Ok ([1 * (Z.to_nat
                  (Walker.max_length
                     [[Walker.mk_csv_file 3 (array [[4; 6]]%Q)];
                      [Walker.mk_csv_file 5 (array [[1; 2; 3; 4]]%Q)]])
                / 2 + 1); 2 / 2 + 1; 3], bytes) /\
    length bytes
    = 1 * (Z.to_nat
             (Walker.max_length
                [[Walker.mk_csv_file 3 (array [[4; 6]]%Q)];
                 [Walker.mk_csv_file 5 (array [[1; 2; 3; 4]]%Q)]])
           / 2 + 1) * (2 / 2 + 1) * 3.
Proof.
  apply (convert_one_fft_in_dataset rfft_abs_small power_map int64_subtract
           [[Walker.mk_csv_file 3 (array [[4; 6]]%Q)];
            [Walker.mk_csv_file 5 (array [[1; 2; 3; 4]]%Q)]]
           (Walker.mk_csv_file 3 (array [[4; 6]]%Q)) 1 2 2).
  - exact rfft_abs_small_length.
  - exact file_in_dataset.
  - simpl. lia.
  - exact array_is_batch_1_2.
  - lia.
  - lia.
  - lia.
Defined.

(** ** The network builder *)

Lemma py_int_body_raises (t : string) (sign : Z) (e : exn) :
  match digits t 0 false with
  | Some n => Ok (sign * n)%Z
  | None => Raise ValueError
  end = Raise e -> e = ValueError.
Proof.
  destruct (digits t 0 false); [discriminate | now intros [= <-]].
Qed.

Lemma py_int_raises (s : string) (e : exn) :
  py_int s = Raise e -> e = ValueError.
Proof.
  unfold py_int. cbv zeta.
  destruct (strip s) as [|c t]; [apply py_int_body_raises|].
  destruct c as [[] [] [] [] [] [] [] []]; cbv beta iota;
    apply py_int_body_raises.
Qed.

Lemma ints_raises (l : list string) (e : exn) :
  ints l = Raise e -> e = ValueError.
Proof.
  induction l as [|f l IH]; simpl; [discriminate|].
  destruct (py_int f) eqn:Ef; simpl.
  - destruct (ints l); simpl; [discriminate|]. intros [= <-]. now apply IH.
  - intros [= <-]. now apply (py_int_raises f).
Qed.

Lemma ints_empty_field (l : list string) :
  In EmptyString l -> exists e, ints l = Raise e.
Proof.
  induction l as [|f l IH]; [contradiction|]. intros [->|Hin]; simpl.
  - eauto.
  - destruct (py_int f); simpl; [|eauto].
    destruct (IH Hin) as [e ->]. simpl. eauto.
Qed.

(** X15.  The filter list is never extended.  [filter_list] has three
    outcomes: a field that is not an integer is a ValueError; a parsed list
    shorter than [num_blocks] is a TypeError; otherwise the result is the
    parsed list itself, of at least [num_blocks] entries. *)
Theorem filter_list_outcomes (num_filters : string) (num_blocks : Z) :
  filter_list num_filters num_blocks
  = match ints (split_comma num_filters) with
    | Raise _ => Raise ValueError
    | Ok parsed =>
        if (Z.of_nat (length parsed) <? num_blocks)%Z then Raise TypeError
        else Ok parsed
    end.
Proof.
  destruct (ints (split_comma num_filters)) as [parsed|e] eqn:E.
  - destruct (Z.ltb_spec (Z.of_nat (length parsed)) num_blocks) as [H|H].
    + now apply (filter_list_short _ _ parsed).
    + now apply filter_list_long.
  - unfold filter_list. rewrite E. simpl. now rewrite (ints_raises _ _ E).
Qed.

(** X16.  An empty field in the filter list (the empty string, a comma at
    either end, two commas in a row) is a ValueError. *)
Theorem filter_list_empty_field (num_filters : string) (num_blocks : Z) :
  In EmptyString (split_comma num_filters) ->
  filter_list num_filters num_blocks = Raise ValueError.
Proof.
  intros Hin. destruct (ints_empty_field _ Hin) as [e E].
  unfold filter_list. rewrite E. simpl. now rewrite (ints_raises _ _ E).
Qed.

Lemma filter_list_empty_field_witness :
  filter_list "32,64," 2 = Raise ValueError.
Proof.
  apply filter_list_empty_field. simpl. auto.
Defined.

Lemma filter_list_returns (num_filters : string) (num_blocks : Z)
  (l : list Z) :
  filter_list num_filters num_blocks = Ok l ->
  ints (split_comma num_filters) = Ok l /\
  (num_blocks <= Z.of_nat (length l))%Z /\ l <> [].
Proof.
  intros H.
  destruct (ints (split_comma num_filters)) as [parsed|e] eqn:E.
  - destruct (Z.ltb_spec (Z.of_nat (length parsed)) num_blocks) as [Hlt|Hle].
    + rewrite (filter_list_short _ _ parsed E Hlt) in H. discriminate H.
    + rewrite (filter_list_long _ _ parsed E Hle) in H. injection H as <-.
      split; [reflexivity|]. split; [exact Hle|].
      intros ->. apply ints_length in E.
      pose proof (split_comma_nonempty num_filters).
      destruct (split_comma num_filters); [congruence | discriminate E].
  - unfold filter_list in H. rewrite E in H. discriminate H.
Qed.

(** X17.  Whenever the filter-list code returns a list, every index at
    which [conv_model] then reads it ([num_filters[0]] and
    [num_filters[layer]] for [layer] from 1 below [num_blocks]) is within
    the list: these reads raise no IndexError. *)
Theorem filter_indices_in_range (num_filters : string) (num_blocks : Z)
  (l : list Z) :
  filter_list num_filters num_blocks = Ok l ->
  Forall (fun i => exists x, item l i = Ok x) (filter_indices num_blocks).
Proof.
  intros H. destruct (filter_list_returns _ _ _ H) as (_ & Hle & Hne).
  assert (Hin : forall i, i < length l -> exists x, item l i = Ok x).
  { intros i Hi. unfold item.
    destruct (nth_error l i) as [x|] eqn:Ex; [eauto|].
    apply nth_error_None in Ex. lia. }
  unfold filter_indices. constructor.
  - apply Hin. destruct l; [congruence | simpl; lia].
  - apply Forall_forall. intros i Hi. apply in_seq in Hi. apply Hin. lia.
Qed.

Lemma filter_indices_in_range_witness :
  Forall (fun i => exists x, item [32; 64; 128]%Z i = Ok x)
    (filter_indices 3).
Proof.
  apply (filter_indices_in_range "32,64,128" 3). reflexivity.
Defined.

(** ** The chunks of the frequency transform *)

Lemma chunks_app (w k k' : nat) (l l' : list Q) :
  length l = k * w ->
  chunks w (k + k') (l ++ l') = chunks w k l ++ chunks w k' l'.
Proof.
  revert l; induction k as [|k IH]; intros l Hl; simpl.
  - destruct l; [reflexivity | discriminate].
  - rewrite firstn_app, skipn_app.
    replace (w - length l) with 0 by lia.
    rewrite firstn_O, skipn_O, app_nil_r. f_equal.
    apply IH. rewrite length_skipn. lia.
Qed.

Lemma chunks_concat_rows (w k : nat) (rs : list (list Q)) :
  Forall (fun r => length r = k * w) rs ->
  chunks w (length rs * k) (concat rs) = concat (map (chunks w k) rs).
Proof.
  induction 1 as [|r rs Hr _ IH]; simpl; [reflexivity|].
  now rewrite chunks_app, IH.
Qed.

Lemma concat_map_concat {A B : Type} (g : A -> list B) (ls : list (list A)) :
  concat (map g (concat ls)) = concat (map (fun l => concat (map g l)) ls).
Proof.
  induction ls as [|l ls IH]; simpl; [reflexivity|].
  now rewrite map_app, concat_app, IH.
Qed.

Lemma pad_to_chunk_size_explicit (n t c : nat) (a : ndarray) :
  is_batch n t a -> 0 < c ->
  pad_to_chunk_size (Z.of_nat c) a
  = Ok (of_rows n (t + (c - t mod c))
          (map (fun r => r ++ repeat 0%Q (c - t mod c)) (rows a))).
Proof.
  intros Ha Hc. unfold pad_to_chunk_size, py_mod.
  destruct (batch_dims n t a Ha) as [_ ->].
  destruct (Z.eqb_spec (Z.of_nat c) 0) as [E|_]; [lia|]. cbn [rbind].
  pose proof (Nat.mod_upper_bound t c ltac:(lia)) as Hlt.
  assert (Hp : (Z.of_nat c - Z.of_nat t mod Z.of_nat c)%Z
               = Z.of_nat (c - t mod c)).
  { rewrite <- Nat2Z.inj_mod. lia. }
  rewrite Hp, (pad_explicit n t a _ Ha) by lia. now rewrite Nat2Z.id.
Qed.

(** X19.  The frequency transform treats every stream on its own: row [i]
    of the batch, followed by [c - t mod c] zeros, is cut into
    [t / c + 1] consecutive chunks of [c] timesteps; the magnitudes of these
    chunks, one after the other, are normalized together by their maximum.
    No chunk holds values of two streams. *)
Theorem simple_fourier_streams (rfft_abs : nat -> list Q -> list Q)
  (n t c f : nat) (a : ndarray) :
  (forall r, length (rfft_abs f r) = f / 2 + 1) ->
  is_batch n t a -> 0 < n -> 0 < c -> 0 < f ->
  exists magnitudes,
    is_batch n ((t / c + 1) * (f / 2 + 1)) magnitudes /\
    rows magnitudes
    = map (fun r => concat (map (rfft_abs f)
                              (chunks c (t / c + 1)
                                 (r ++ repeat 0%Q (c - t mod c)))))
        (rows a) /\
    simple_fourier rfft_abs (Z.of_nat c) (Z.of_nat f) a
    = (a, Ok (stack3 (mk_ndarray [n * (t / c + 1); f / 2 + 1]
                        (data (normalized magnitudes))))).
Proof.
  intros Hr Ha Hn Hc Hf.
  destruct (simple_fourier_explicit rfft_abs n t c f a Hr Ha Hn Hc Hf)
    as (padded & mags & Ep & Hp & Hd & Hm & E).
  exists mags. split; [exact Hm|]. split; [|exact E].
  rewrite (pad_to_chunk_size_explicit n t c a Ha Hc) in Ep.
  injection Ep as <-.
  set (k := t / c + 1) in *. set (b := f / 2 + 1) in *.
  set (z := c - t mod c) in *.
  pose proof (batch_rows_length n t a Ha) as Hlen.
  assert (Hw : Forall (fun r => length r = k * c)
                 (map (fun r => r ++ repeat 0%Q z) (rows a))).
  { rewrite Forall_map.
    eapply Forall_impl; [|apply (batch_rows_widths n t a Ha)].
    intros r Hlr. simpl in *. rewrite length_app, repeat_length, Hlr.
    unfold k, z. pose proof (Nat.div_mod_eq t c).
    pose proof (Nat.mod_upper_bound t c ltac:(lia)). lia. }
  unfold rows at 1. destruct (batch_dims _ _ _ Hm) as [-> ->].
  rewrite Hd. cbn [data of_rows].
  replace (n * k) with (length (map (fun r => r ++ repeat 0%Q z) (rows a)) * k)
    by (rewrite length_map, Hlen; reflexivity).
  rewrite (chunks_concat_rows c k _ Hw), concat_map_concat, !map_map.
  rewrite <- Hlen at 1.
  rewrite <- (length_map (fun r => concat (map (rfft_abs f)
                                (chunks c k (r ++ repeat 0%Q z)))) (rows a)).
  apply chunks_concat. rewrite Forall_map.
  rewrite Forall_map in Hw. eapply Forall_impl; [|exact Hw].
  intros r Hlr. simpl in *.
  rewrite (length_concat_uniform b).
  - rewrite length_map, chunks_length. reflexivity.
  - rewrite Forall_map. apply Forall_forall. intros r' _. apply Hr.
Qed.

Lemma simple_fourier_streams_witness :
  exists magnitudes,
    is_batch 1 ((4 / 2 + 1) * (2 / 2 + 1)) magnitudes /\
    rows magnitudes
    = map (fun r => concat (map (rfft_abs_small 2)
                              (chunks 2 (4 / 2 + 1)
                                 (r ++ repeat 0%Q (2 - 4 mod 2)))))
        (rows (array [[1; 2; 3; 4]]%Q)) /\
    simple_fourier rfft_abs_small (Z.of_nat 2) (Z.of_nat 2)
      (array [[1; 2; 3; 4]]%Q)
    = (array [[1; 2; 3; 4]]%Q,
       Ok (stack3 (mk_ndarray [1 * (4 / 2 + 1); 2 / 2 + 1]
                     (data (normalized magnitudes))))).
Proof.
  apply (simple_fourier_streams rfft_abs_small 1 4 2 2).
  - exact rfft_abs_small_length.
  - exact array_is_batch_1_4.
  - lia.
  - lia.
  - lia.
Defined.
